(** * The Heather lexer of hhat_lang: rule tables and scanning loop

    Source: [hhat_lang/dialects/heather/toolchain/pygments/lexer.py], class
    [HeatherLexer].  The class is a table of ordered regular-expression rules
    per lexer state; the loop that applies the table lives in the host
    highlighting framework and is described by the specification (section
    4.1).  This file embeds

    - the regular expressions of the table, as a small syntax with the
      backtracking semantics of Python's [re] (ordered alternatives, greedy
      repetition, [\b], lookahead);
    - the table itself, rule by rule, in the declared order;
    - the stepping loop of the scanner.

    A Python [str] is a sequence of code points: a character is a number [N],
    a string a [list N].  The classes [\s], [\d] and [\w] are fixed here on
    the ASCII range; beyond it they depend on the Unicode database of the
    interpreter, which is taken as a parameter ([UnicodeData]). *)

From Stdlib Require Import String Ascii List NArith Arith Bool Lia Permutation.
Import ListNotations.

(** ** Characters and strings *)

Definition char := N.

Definition ch (a : ascii) : char := N_of_ascii a.

Fixpoint codes (s : string) : list char :=
  match s with
  | EmptyString => []
  | String a s' => ch a :: codes s'
  end.

(** [t[i:j]] of Python, for [i <= j]. *)
Definition substring (t : list char) (i j : nat) : list char :=
  firstn (j - i) (skipn i t).

(** The tables of the Unicode database, consulted for code points from 128
    on: [str.isspace], decimal digits (category Nd), [str.isalnum]. *)
Record UnicodeData := {
  uni_isspace : N -> bool;
  uni_isdecimal : N -> bool;
  uni_isalnum : N -> bool
}.

Definition between (lo hi c : N) : bool := (lo <=? c)%N && (c <=? hi)%N.

Definition ascii_isspace (c : N) : bool :=
  between 9 13 c || between 28 32 c.

Definition ascii_isdecimal (c : N) : bool := between 48 57 c.

Definition ascii_isalnum (c : N) : bool :=
  between 48 57 c || between 65 90 c || between 97 122 c.

(** ** Regular expressions *)

(** An item of a bracketed class, or an escape used as a class. *)
Inductive citem :=
| Ch (a : ascii)          (* a literal character *)
| Rng (lo hi : ascii)     (* lo-hi *)
| Esc_s                   (* \s *)
| Esc_d.                  (* \d *)

Inductive cclass :=
| OneOf (items : list citem)     (* [...] *)
| NoneOf (items : list citem).   (* [^...] *)

(** The source applies [*] and [+] to character classes only, and [?] to a
    single character; the syntax keeps [Opt] general. *)
Inductive regex :=
| Lit (s : string)               (* a literal string *)
| Words (ws : list string)       (* (?:w1|w2|...) *)
| Chr (c : cclass)
| Star (c : cclass)              (* c*  greedy *)
| Plus (c : cclass)              (* c+  greedy *)
| Opt (r : regex)                (* r?  greedy *)
| Seq (r1 r2 : regex)
| Alt (r1 r2 : regex)            (* r1|r2, r1 first *)
| WordB                          (* \b *)
| Ahead (r : regex).             (* (?=r) *)

Arguments Lit s%_string.
Arguments Words ws%_string.
Arguments Ch a%_char.
Arguments Rng (lo hi)%_char.

Declare Scope re_scope.
Delimit Scope re_scope with re.
Bind Scope re_scope with regex.
Notation "r1 ;; r2" := (Seq r1 r2) (at level 61, right associativity) : re_scope.
Notation "r1 <|> r2" := (Alt r1 r2) (at level 62, right associativity) : re_scope.

(** A position of the matcher: the character before the cursor (if any) and
    the text from the cursor on. *)
Definition mpos : Type := option char * list char.

Section Matcher.

Variable U : UnicodeData.

Definition isspace (c : char) : bool :=
  if (c <? 128)%N then ascii_isspace c else uni_isspace U c.

Definition isdecimal (c : char) : bool :=
  if (c <? 128)%N then ascii_isdecimal c else uni_isdecimal U c.

Definition isalnum (c : char) : bool :=
  if (c <? 128)%N then ascii_isalnum c else uni_isalnum U c.

(** [\w]: alphanumeric or underscore. *)
Definition isword (c : char) : bool := isalnum c || (c =? 95)%N.

Definition citem_mem (i : citem) (c : char) : bool :=
  match i with
  | Ch a => (c =? ch a)%N
  | Rng lo hi => between (ch lo) (ch hi) c
  | Esc_s => isspace c
  | Esc_d => isdecimal c
  end.

Definition cclass_mem (cs : cclass) (c : char) : bool :=
  match cs with
  | OneOf items => existsb (fun i => citem_mem i c) items
  | NoneOf items => negb (existsb (fun i => citem_mem i c) items)
  end.

Definition opt_isword (o : option char) : bool :=
  match o with Some c => isword c | None => false end.

(** [\b]: exactly one of the two neighbours of the cursor is a word
    character; the ends of the string count as non-word. *)
Definition at_boundary (p : mpos) : bool :=
  xorb (opt_isword (fst p)) (opt_isword (hd_error (snd p))).

Fixpoint lit_match (s : list char) (p : mpos) : option mpos :=
  match s with
  | [] => Some p
  | a :: s' =>
      match snd p with
      | c :: rest => if (c =? a)%N then lit_match s' (Some c, rest) else None
      | [] => None
      end
  end.

Definition olist {A} (o : option A) : list A :=
  match o with Some a => [a] | None => [] end.

(** Greedy repetition of a class: the longest run first, then every shorter
    one down to the empty run. *)
Fixpoint star_match (cs : cclass) (prev : option char) (rest : list char)
  : list mpos :=
  match rest with
  | c :: rest' =>
      if cclass_mem cs c
      then star_match cs (Some c) rest' ++ [(prev, rest)]
      else [(prev, rest)]
  | [] => [(prev, rest)]
  end.

(** All the ways [r] matches at [p], in the order in which a backtracking
    matcher tries them; the head is the match [re] reports. *)
Fixpoint mtch (r : regex) (p : mpos) : list mpos :=
  match r with
  | Lit s => olist (lit_match (codes s) p)
  | Words ws => flat_map (fun w => olist (lit_match (codes w) p)) ws
  | Chr cs =>
      match snd p with
      | c :: rest => if cclass_mem cs c then [(Some c, rest)] else []
      | [] => []
      end
  | Star cs => star_match cs (fst p) (snd p)
  | Plus cs =>
      match snd p with
      | c :: rest => if cclass_mem cs c then star_match cs (Some c) rest else []
      | [] => []
      end
  | Opt r1 => mtch r1 p ++ [p]
  | Seq r1 r2 => flat_map (mtch r2) (mtch r1 p)
  | Alt r1 r2 => mtch r1 p ++ mtch r2 p
  | WordB => if at_boundary p then [p] else []
  | Ahead r1 => match mtch r1 p with [] => [] | _ :: _ => [p] end
  end.

Definition prev_at (t : list char) (i : nat) : option char :=
  match i with
  | 0 => None
  | S j => nth_error t j
  end.

(** [pattern.match(text, pos)]: the end offset of the match, if any.  The
    character before [pos] stays visible to [\b]. *)
Definition rexmatch (r : regex) (t : list char) (i : nat) : option nat :=
  match mtch r (prev_at t i, skipn i t) with
  | [] => None
  | (_, rest) :: _ => Some (length t - length rest)
  end.

End Matcher.

(** ** Token types, lexer states, rules *)

(** The token types the table uses, with the names of the source
    ([Comment.Single] is [Comment_Single], ...); [Error] is the type of the
    fallback token. *)
Inductive TokenType :=
| Whitespace
| Comment_Single
| Comment_Multiline
| Keyword_Declaration
| Keyword_Type
| Keyword_Reserved
| Name_Builtin
| Name_Builtin_Quantum
| Name_Constant
| Name_Constant_Quantum
| Operator_Word
| Operator
| Punctuation
| Name_Decorator
| Number_Quantum
| Number_Float
| Number_Integer
| String_
| Name_Variable_Quantum
| Name_Class
| Name
| Name_Attribute
| Error.

(** The enumeration of the specification (section 3). *)
Inductive TokenKind :=
| keyword_declaration | keyword_type | keyword_reserved
| builtin_type_classical | builtin_type_quantum
| constant_boolean | constant_boolean_quantum
| operator_word | operator | punctuation | decorator
| number_integer | number_float | number_quantum_integer
| identifier | identifier_quantum | type_identifier
| string_literal | comment | attribute_name | whitespace | error_fallback.

Definition kind_of (ty : TokenType) : TokenKind :=
  match ty with
  | Whitespace => whitespace
  | Comment_Single => comment
  | Comment_Multiline => comment
  | Keyword_Declaration => keyword_declaration
  | Keyword_Type => keyword_type
  | Keyword_Reserved => keyword_reserved
  | Name_Builtin => builtin_type_classical
  | Name_Builtin_Quantum => builtin_type_quantum
  | Name_Constant => constant_boolean
  | Name_Constant_Quantum => constant_boolean_quantum
  | Operator_Word => operator_word
  | Operator => operator
  | Punctuation => punctuation
  | Name_Decorator => decorator
  | Number_Quantum => number_quantum_integer
  | Number_Float => number_float
  | Number_Integer => number_integer
  | String_ => string_literal
  | Name_Variable_Quantum => identifier_quantum
  | Name_Class => type_identifier
  | Name => identifier
  | Name_Attribute => attribute_name
  | Error => error_fallback
  end.

(** The keys of [HeatherLexer.tokens]: "root", "comment", "trait-list",
    "modifier" (Root, BlockComment, TraitList, Modifier in the
    specification). *)
Inductive LexerState := root | comment_ | trait_list | modifier.

(** The third component of a rule: absent, a state name, "#push" or
    "#pop". *)
Inductive Action :=
| Stay
| Push (s : LexerState)
| PushSame
| Pop.

Record Rule := {
  pattern : regex;
  emit : option TokenType;
  action : Action
}.

Definition rule (r : regex) (ty : TokenType) : Rule :=
  {| pattern := r; emit := Some ty; action := Stay |}.

Definition rule_to (r : regex) (ty : TokenType) (a : Action) : Rule :=
  {| pattern := r; emit := Some ty; action := a |}.

(** *** The word lists of the class *)

Definition keywords_decl : list string :=
  ["const"; "fn"; "main"; "meta-fn"; "metafn"; "modifier"; "metamod";
   "type"; "use"]%string.

Definition keywords_type : list string :=
  ["bdn_t"; "fn_t"; "ir_t"; "opbdn_t"; "opn_t"; "optn_t"]%string.

Definition builtin_types_classical : list string :=
  ["bool"; "f32"; "f64"; "float"; "hashmap"; "i32"; "i64"; "imag"; "int";
   "sample_t"; "str"; "u32"; "u64"]%string.

Definition builtin_types_quantum : list string :=
  ["@bell_t"; "@bool"; "@false"; "@int"; "@true"; "@u2"; "@u3"; "@u4"]%string.

Definition bool_literals : list string := ["false"; "true"]%string.

Definition quantum_bool_literals : list string := ["@false"; "@true"]%string.

Definition keywords_reserved : list string := ["self"]%string.

(** [words(ws, suffix=r"\b")] and [words(ws, prefix=r"\b", suffix=r"\b")].
    The host builds one alternation out of the list; the order of the
    alternatives is immaterial as long as no word of a list is a prefix of
    another ([words_prefix_free] below). *)
Definition words (ws : list string) : regex := (Words ws ;; WordB)%re.

Definition bwords (ws : list string) : regex :=
  (WordB ;; Words ws ;; WordB)%re.

(** *** Pieces shared by several patterns *)

Definition nl : ascii := "010"%char.
Definition tab : ascii := "009"%char.
Definition cr : ascii := "013"%char.
Definition dquote : ascii := "034"%char.

(** [[a-zA-Z0-9\-_]] *)
Definition ident_char : cclass :=
  OneOf [Rng "a" "z"; Rng "A" "Z"; Rng "0" "9"; Ch "-"; Ch "_"].

Definition upper : cclass := OneOf [Rng "A" "Z"].
Definition lower : cclass := OneOf [Rng "a" "z"].
Definition alpha : cclass := OneOf [Rng "a" "z"; Rng "A" "Z"].
Definition digit : cclass := OneOf [Esc_d].
Definition space : cclass := OneOf [Esc_s].

(** [-?(?:[1-9]\d*|0)\b] *)
Definition re_int : regex :=
  (Opt (Lit "-") ;; ((Chr (OneOf [Rng "1" "9"]) ;; Star digit) <|> Lit "0")
   ;; WordB)%re.

(** The string rule: a double quote, [[^ double quote]*], a double quote. *)
Definition re_string : regex :=
  (Chr (OneOf [Ch dquote]) ;; Star (NoneOf [Ch dquote]) ;;
   Chr (OneOf [Ch dquote]))%re.

(** *** The table *)

Definition tokens (s : LexerState) : list Rule :=
  match s with
  | root =>
    [ (* [ \t\r\n,;]+ *)
      rule (Plus (OneOf [Ch " "; Ch tab; Ch cr; Ch nl; Ch ","; Ch ";"]))
           Whitespace;
      (* //[^\n]*\n *)
      rule (Lit "//" ;; Star (NoneOf [Ch nl]) ;; Chr (OneOf [Ch nl]))
           Comment_Single;
      (* /\* *)
      rule_to (Lit "/*") Comment_Multiline (Push comment_);
      rule (words keywords_decl) Keyword_Declaration;
      rule (words keywords_type) Keyword_Type;
      rule (words keywords_reserved) Keyword_Reserved;
      rule (words builtin_types_classical) Name_Builtin;
      rule (words builtin_types_quantum) Name_Builtin_Quantum;
      rule (bwords bool_literals) Name_Constant;
      rule (bwords quantum_bool_literals) Name_Constant_Quantum;
      (* :: *)
      rule (Lit "::") Operator_Word;
      (* \*(?=\s) *)
      rule (Lit "*" ;; Ahead (Chr space)) Operator_Word;
      (* & *)
      rule (Lit "&") Operator_Word;
      (* \.\.\.(?=\s|\)|\]|\}) *)
      rule (Lit "..." ;;
            Ahead (Chr space <|> Lit ")" <|> Lit "]" <|> Lit "}"))
           Operator;
      (* \.\.(?=\s|\)|\]|\}|[a-zA-Z0-9]) *)
      rule (Lit ".." ;;
            Ahead (Chr space <|> Lit ")" <|> Lit "]" <|> Lit "}" <|>
                   Chr (OneOf [Rng "a" "z"; Rng "A" "Z"; Rng "0" "9"])))
           Operator;
      rule (Lit ":") Operator;
      rule (Lit "=") Operator;
      rule (Lit ".") Operator;
      (* [(){}\[\]] *)
      rule (Chr (OneOf [Ch "("; Ch ")"; Ch "{"; Ch "}"; Ch "["; Ch "]"]))
           Punctuation;
      (* #\[ *)
      rule_to (Lit "#[") Punctuation (Push trait_list);
      (* #@?[A-Z][a-zA-Z0-9\-_]* *)
      rule (Lit "#" ;; Opt (Lit "@") ;; Chr upper ;; Star ident_char)
           Name_Decorator;
      (* < *)
      rule_to (Lit "<") Punctuation (Push modifier);
      (* @-?(?:[1-9]\d*|0)\b *)
      rule (Lit "@" ;; re_int) Number_Quantum;
      (* -?\d+\.\d+ *)
      rule (Opt (Lit "-") ;; Plus digit ;; Lit "." ;; Plus digit) Number_Float;
      (* -?(?:[1-9]\d*|0)\b *)
      rule re_int Number_Integer;
      (* a double quote, [^ double quote]*, a double quote *)
      rule re_string String_;
      (* @[a-zA-Z][a-zA-Z0-9\-_]* *)
      rule (Lit "@" ;; Chr alpha ;; Star ident_char) Name_Variable_Quantum;
      (* [A-Z][a-zA-Z0-9\-_]* *)
      rule (Chr upper ;; Star ident_char) Name_Class;
      (* [a-z][a-zA-Z0-9\-_]* *)
      rule (Chr lower ;; Star ident_char) Name ]%re
  | comment_ =>
    [ (* [^*/] *)
      rule (Chr (NoneOf [Ch "*"; Ch "/"])) Comment_Multiline;
      rule_to (Lit "/*") Comment_Multiline PushSame;
      rule_to (Lit "*/") Comment_Multiline Pop;
      (* [*/] *)
      rule (Chr (OneOf [Ch "*"; Ch "/"])) Comment_Multiline ]%re
  | trait_list =>
    [ rule (Plus space) Whitespace;
      (* @?[A-Z][a-zA-Z0-9\-_]* *)
      rule (Opt (Lit "@") ;; Chr upper ;; Star ident_char) Name_Decorator;
      rule_to (Lit "]") Punctuation Pop ]%re
  | modifier =>
    [ rule (Plus space) Whitespace;
      rule (Lit "&") Operator_Word;
      rule (Lit "*") Operator_Word;
      rule (Lit "...") Operator;
      rule (Lit ":") Operator;
      rule (Lit "=") Operator;
      (* @?[a-zA-Z][a-zA-Z0-9\-_]* *)
      rule (Opt (Lit "@") ;; Chr alpha ;; Star ident_char) Name_Attribute;
      rule re_int Number_Integer;
      rule_to (Lit ">") Punctuation Pop ]%re
  end.

(** ** The scanner *)

Record Token := {
  ttype : TokenType;
  text : list char;
  start_offset : nat;
  end_offset : nat
}.

Definition kind (t : Token) : TokenKind := kind_of (ttype t).

(** The stack of lexer states, top first: its last element is the bottom. *)
Record ScannerState := {
  cursor : nat;
  state_stack : list LexerState
}.

Definition initial : ScannerState :=
  {| cursor := 0; state_stack := [root] |}.

(** Modelled from the spec: the effect of a rule's action on the state
    stack (section 4.1, step c).  [Push s] pushes [s]; "#push" pushes the
    state on top once more; [Pop] pops the top of the stack unless it is
    [root]; [Stay] leaves the stack. *)
Definition apply_action (a : Action) (stack : list LexerState)
  : list LexerState :=
  match a with
  | Stay => stack
  | Push s => s :: stack
  | PushSame =>
      match stack with
      | s :: _ => s :: stack
      | [] => stack
      end
  | Pop =>
      match stack with
      | root :: _ => stack
      | _ :: below => below
      | [] => stack
      end
  end.

Inductive outcome :=
| Done (toks : list Token)
| Failed
| OutOfFuel.

Section Scanner.

Variable U : UnicodeData.

(** The first rule of the list, in declared order, whose pattern matches at
    offset [i], with the end of its match. *)
Fixpoint first_match (rs : list Rule) (t : list char) (i : nat)
  : option (Rule * nat) :=
  match rs with
  | [] => None
  | r :: rs' =>
      match rexmatch U (pattern r) t i with
      | Some e => Some (r, e)
      | None => first_match rs' t i
      end
  end.

Definition token (ty : TokenType) (t : list char) (i j : nat) : Token :=
  {| ttype := ty; text := substring t i j; start_offset := i;
     end_offset := j |}.

(** Modelled from the spec: one turn of the stepping loop (section 4.1,
    steps a to d), for a cursor inside the input.  The rules of the state
    on top of the stack are tried in order; the first that matches emits its
    token (if it has one), moves the cursor to the end of the match and
    applies its action; when none matches, one character becomes an [Error]
    token.  The host has no state to consult on an empty stack: the turn
    fails. *)
Definition step (t : list char) (st : ScannerState)
  : option (list Token * ScannerState) :=
  match state_stack st with
  | [] => None
  | s :: _ =>
      match first_match (tokens s) t (cursor st) with
      | Some (r, e) =>
          Some (match emit r with
                | Some ty => [token ty t (cursor st) e]
                | None => []
                end,
                {| cursor := e;
                   state_stack := apply_action (action r) (state_stack st) |})
      | None =>
          Some ([token Error t (cursor st) (S (cursor st))],
                {| cursor := S (cursor st);
                   state_stack := state_stack st |})
      end
  end.

(** Modelled from the spec: the loop [while cursor < len(input)] (section
    4.1, steps 1 and 2), with a bound on the number of turns. *)
Fixpoint scan (fuel : nat) (t : list char) (st : ScannerState) : outcome :=
  if length t <=? cursor st then Done []
  else
    match fuel with
    | 0 => OutOfFuel
    | S fuel' =>
        match step t st with
        | None => Failed
        | Some (toks, st') =>
            match scan fuel' t st' with
            | Done more => Done (toks ++ more)
            | o => o
            end
        end
    end.

(** [tokenize(source_text)]: one turn per character is enough
    ([scan_covers]). *)
Definition tokenize (t : list char) : outcome :=
  scan (length t) t initial.

(** The scanner states met while tokenizing: the initial one and every one a
    turn of the loop leads to. *)
Inductive reachable (t : list char) : ScannerState -> Prop :=
| reach_initial : reachable t initial
| reach_step st toks st' :
    reachable t st ->
    cursor st < length t ->
    step t st = Some (toks, st') ->
    reachable t st'.

End Scanner.

(** A table for the examples: no code point beyond ASCII is a space, a
    digit or alphanumeric.  The examples are ASCII, so the choice does not
    show. *)
Definition ascii_only : UnicodeData :=
  {| uni_isspace := fun _ => false;
     uni_isdecimal := fun _ => false;
     uni_isalnum := fun _ => false |}.

(** A pattern that may match the empty string (a syntactic check, read
    off the pattern). *)
Definition is_empty (s : string) : bool :=
  match s with EmptyString => true | String _ _ => false end.

Fixpoint nullable (r : regex) : bool :=
  match r with
  | Lit s => is_empty s
  | Words ws => existsb is_empty ws
  | Chr _ => false
  | Star _ => true
  | Plus _ => false
  | Opt _ => true
  | Seq r1 r2 => nullable r1 && nullable r2
  | Alt r1 r2 => nullable r1 || nullable r2
  | WordB => true
  | Ahead _ => true
  end.

(** The result of a run that is one token spanning the whole input [s]. *)
Definition one (ty : TokenType) (s : string) : outcome :=
  Done [{| ttype := ty; text := codes s;
           start_offset := 0; end_offset := length (codes s) |}].

Definition kinds_of (o : outcome) : option (list TokenKind) :=
  match o with
  | Done toks => Some (map kind toks)
  | _ => None
  end.

(** [a] is a prefix of [b]. *)
Fixpoint is_prefix (a b : list char) : bool :=
  match a, b with
  | [], _ => true
  | x :: a', y :: b' => (x =? y)%N && is_prefix a' b'
  | _ :: _, [] => false
  end.

(** No word of the list is a proper prefix of another word of the list. *)
Definition prefix_free (ws : list string) : bool :=
  forallb (fun w =>
    forallb (fun w' => String.eqb w w' || negb (is_prefix (codes w) (codes w')))
            ws) ws.

Definition LexerState_eq_dec (a b : LexerState) : {a = b} + {a <> b}.
Proof. decide equality. Defined.

(** The shapes a state stack takes: block comments nested to some depth
    over [root], or one of the two bracket states directly over [root]. *)
Definition stack_shape (stack : list LexerState) : Prop :=
  (exists depth, stack = repeat comment_ depth ++ [root]) \/
  stack = [trait_list; root] \/
  stack = [modifier; root].

(** The closer of a block comment occurs somewhere in the text. *)
Fixpoint has_closer (l : list char) : bool :=
  match l with
  | [] => false
  | _ :: l' => is_prefix (codes "*/") l || has_closer l'
  end.

(** The class of the whitespace rule of [root]: [[ \t\r\n,;]]. *)
Definition separator : cclass :=
  OneOf [Ch " "; Ch tab; Ch cr; Ch nl; Ch ","; Ch ";"].

(** The rules of [root] built with [words(..., suffix=r"\b")]: their index
    in the table, their word list and their token type. *)
Definition word_rules : list (nat * list string * TokenType) :=
  [ (3, keywords_decl, Keyword_Declaration);
    (4, keywords_type, Keyword_Type);
    (5, keywords_reserved, Keyword_Reserved);
    (6, builtin_types_classical, Name_Builtin);
    (7, builtin_types_quantum, Name_Builtin_Quantum) ].

(** The attributes of the class that the host reads: [name], [aliases],
    [filenames], [mimetypes]. *)
Definition name : string := "Heather".
Definition aliases : list string := ["heather"; "hhat"; "hhat-heather"]%string.
Definition filenames : list string := ["*.hhat"; "*.hat"]%string.
Definition mimetypes : list string := ["text/x-heather"; "text/x-hhat"]%string.

(** The entry [register_lexer] of [setup_pygments.py] stores under
    "HeatherLexer", a tuple: module, name, aliases, file patterns, MIME
    types. *)
Record LexerInfo := {
  info_module : string;
  info_name : string;
  info_aliases : list string;
  info_filenames : list string;
  info_mimetypes : list string
}.

Definition lexer_info : LexerInfo :=
  {| info_module := "hhat_lang.dialects.heather.toolchain.pygments.lexer";
     info_name := "Heather";
     info_aliases := ["heather"; "hhat"; "hhat-heather"]%string;
     info_filenames := ["*.hat"; "*.hhat"]%string;
     info_mimetypes := ["text/x-heather"; "text/x-hhat"]%string |}.

(** ** Properties of a token sequence *)

(** [covers t a toks b]: the tokens tile the text from offset [a] to offset
    [b]: each starts where the one before ended, is not empty, and carries
    the slice of the text between its offsets. *)
Fixpoint covers (t : list char) (a : nat) (toks : list Token) (b : nat)
  : Prop :=
  match toks with
  | [] => a = b
  | tk :: more =>
      start_offset tk = a /\
      a < end_offset tk /\
      text tk = substring t a (end_offset tk) /\
      covers t (end_offset tk) more b
  end.

Definition texts (toks : list Token) : list char :=
  concat (map text toks).

(** The stack has [root] at its bottom (and so is not empty). *)
Definition root_at_bottom (stack : list LexerState) : Prop :=
  exists above, stack = above ++ [root].

(** ** The matcher only moves forward *)

Section MatcherFacts.

Variable U : UnicodeData.

Lemma lit_match_length (s : list char) : forall (p q : mpos),
  lit_match s p = Some q -> length (snd q) + length s = length (snd p).
Proof.
  induction s as [|a s IH]; intros [prev rest] q; simpl.
  - intros [= <-]. simpl. lia.
  - destruct rest as [|c rest]; [discriminate|].
    destruct (c =? a)%N; [|discriminate].
    intros H. apply IH in H. simpl in *. lia.
Qed.

Lemma star_match_le (cs : cclass) : forall rest prev q,
  In q (star_match U cs prev rest) -> length (snd q) <= length rest.
Proof.
  induction rest as [|c rest IH]; intros prev q; simpl.
  - intros [<-|[]]. simpl. lia.
  - destruct (cclass_mem U cs c).
    + rewrite in_app_iff. intros [H|[<-|[]]].
      * apply IH in H. lia.
      * simpl. lia.
    + intros [<-|[]]. simpl. lia.
Qed.

Lemma mtch_le (r : regex) : forall p q,
  In q (mtch U r p) -> length (snd q) <= length (snd p).
Proof.
  induction r as [s|ws|cs|cs|cs|r IH|r1 IH1 r2 IH2|r1 IH1 r2 IH2| |r IH];
    intros p q; simpl.
  - destruct (lit_match (codes s) p) eqn:E; simpl; [|tauto].
    intros [<-|[]]. apply lit_match_length in E. lia.
  - rewrite in_flat_map. intros (w & _ & H).
    destruct (lit_match (codes w) p) eqn:E; simpl in H; [|tauto].
    destruct H as [<-|[]]. apply lit_match_length in E. lia.
  - destruct p as [prev [|c rest]]; simpl; [tauto|].
    destruct (cclass_mem U cs c); simpl; [|tauto].
    intros [<-|[]]. simpl. lia.
  - apply star_match_le.
  - destruct p as [prev [|c rest]]; simpl; [tauto|].
    destruct (cclass_mem U cs c); simpl; [|tauto].
    intros H. apply star_match_le in H. lia.
  - rewrite in_app_iff. intros [H|[<-|[]]]; [now apply IH|lia].
  - rewrite in_flat_map. intros (m & H1 & H2).
    apply IH1 in H1. apply IH2 in H2. lia.
  - rewrite in_app_iff. intros [H|H]; [now apply IH1|now apply IH2].
  - destruct (at_boundary U p); simpl; [|tauto]. intros [<-|[]]. lia.
  - destruct (mtch U r p); simpl; [tauto|]. intros [<-|[]]. lia.
Qed.

Lemma is_empty_codes (s : string) :
  is_empty s = false -> 0 < length (codes s).
Proof. destruct s; simpl; [discriminate|lia]. Qed.

(** A pattern that is not [nullable] consumes at least one character. *)
Lemma mtch_lt (r : regex) : forall p q,
  nullable r = false ->
  In q (mtch U r p) -> length (snd q) < length (snd p).
Proof.
  induction r as [s|ws|cs|cs|cs|r IH|r1 IH1 r2 IH2|r1 IH1 r2 IH2| |r IH];
    intros p q; simpl; try discriminate.
  - intros Hs. apply is_empty_codes in Hs.
    destruct (lit_match (codes s) p) eqn:E; simpl; [|tauto].
    intros [<-|[]]. apply lit_match_length in E. lia.
  - intros Hws. rewrite in_flat_map. intros (w & Hw & H).
    destruct (lit_match (codes w) p) eqn:E; simpl in H; [|tauto].
    destruct H as [<-|[]]. apply lit_match_length in E.
    assert (is_empty w = false) as Hne.
    { destruct (is_empty w) eqn:Ew; [|reflexivity].
      assert (existsb is_empty ws = true) as Hex
        by (apply existsb_exists; eauto).
      congruence. }
    apply is_empty_codes in Hne. lia.
  - intros _. destruct p as [prev [|c rest]]; simpl; [tauto|].
    destruct (cclass_mem U cs c); simpl; [|tauto].
    intros [<-|[]]. simpl. lia.
  - intros _. destruct p as [prev [|c rest]]; simpl; [tauto|].
    destruct (cclass_mem U cs c); simpl; [|tauto].
    intros H. apply star_match_le in H. lia.
  - intros Hn. rewrite in_flat_map. intros (m & H1 & H2).
    apply andb_false_iff in Hn. destruct Hn as [Hn|Hn].
    + apply (IH1 _ _ Hn) in H1. apply mtch_le in H2. lia.
    + apply mtch_le in H1. apply (IH2 _ _ Hn) in H2. lia.
  - intros Hn. apply orb_false_iff in Hn. destruct Hn as [Hn1 Hn2].
    rewrite in_app_iff. intros [H|H]; [now apply IH1|now apply IH2].
Qed.

(** What [rexmatch] returns lies between the cursor and the end of the
    text. *)
Lemma rexmatch_bounds (r : regex) (t : list char) (i e : nat) :
  i <= length t ->
  rexmatch U r t i = Some e ->
  i <= e <= length t.
Proof.
  unfold rexmatch. intros Hi.
  destruct (mtch U r (prev_at t i, skipn i t)) as [|[prev rest] l] eqn:E;
    [discriminate|].
  intros [= <-].
  assert (length rest <= length (skipn i t)) as H.
  { apply (mtch_le r (prev_at t i, skipn i t) (prev, rest)).
    rewrite E. now left. }
  rewrite length_skipn in H. lia.
Qed.

Lemma rexmatch_progress (r : regex) (t : list char) (i e : nat) :
  nullable r = false ->
  rexmatch U r t i = Some e ->
  i < e.
Proof.
  unfold rexmatch. intros Hn.
  destruct (mtch U r (prev_at t i, skipn i t)) as [|[prev rest] l] eqn:E;
    [discriminate|].
  intros [= <-].
  assert (length rest < length (skipn i t)) as H.
  { apply (mtch_lt r (prev_at t i, skipn i t) (prev, rest) Hn).
    rewrite E. now left. }
  rewrite length_skipn in H. lia.
Qed.

End MatcherFacts.

(** ** The table *)

Lemma tokens_consume (s : LexerState) (r : Rule) :
  In r (tokens s) -> nullable (pattern r) = false.
Proof.
  assert (forallb (fun r => negb (nullable (pattern r))) (tokens s) = true)
    as H by (destruct s; reflexivity).
  rewrite forallb_forall in H. intros Hr. apply H in Hr.
  now apply negb_true_iff in Hr.
Qed.

Lemma tokens_emit (s : LexerState) (r : Rule) :
  In r (tokens s) -> exists ty, emit r = Some ty.
Proof.
  assert (forallb (fun r => match emit r with Some _ => true | None => false end)
            (tokens s) = true)
    as H by (destruct s; reflexivity).
  rewrite forallb_forall in H. intros Hr. apply H in Hr.
  destruct (emit r); [eauto|discriminate].
Qed.

(** ** The stack *)

Lemma root_at_bottom_initial : root_at_bottom (state_stack initial).
Proof. exists []. reflexivity. Qed.

Lemma root_at_bottom_nonempty (stack : list LexerState) :
  root_at_bottom stack -> stack <> [].
Proof. intros [above ->]. destruct above; discriminate. Qed.

Lemma apply_action_root_at_bottom (a : Action) (stack : list LexerState) :
  root_at_bottom stack -> root_at_bottom (apply_action a stack).
Proof.
  intros [above ->]. destruct a; simpl.
  - now exists above.
  - now exists (s :: above).
  - destruct above as [|x above]; simpl.
    + now exists [root].
    + now exists (x :: x :: above).
  - destruct above as [|x above]; simpl.
    + now exists [].
    + destruct x; first [now exists (root :: above) | now exists above].
Qed.

(** ** One turn of the loop *)

Section ScannerFacts.

Variable U : UnicodeData.

Lemma first_match_some (rs : list Rule) (t : list char) (i : nat) r e :
  first_match U rs t i = Some (r, e) ->
  In r rs /\ rexmatch U (pattern r) t i = Some e.
Proof.
  induction rs as [|r0 rs IH]; simpl; [discriminate|].
  destruct (rexmatch U (pattern r0) t i) eqn:E.
  - intros [= <- <-]. auto.
  - intros H. apply IH in H. tauto.
Qed.

(** A turn inside the input, on a stack with [root] at its bottom, does not
    fail: it emits exactly one token, which starts at the cursor and ends at
    the new cursor, strictly further and still inside the text. *)
Lemma step_turn (t : list char) (st : ScannerState) :
  root_at_bottom (state_stack st) ->
  cursor st < length t ->
  exists ty st',
    step U t st = Some ([token ty t (cursor st) (cursor st')], st') /\
    cursor st < cursor st' <= length t /\
    root_at_bottom (state_stack st').
Proof.
  intros Hstack Hcur. unfold step.
  destruct (state_stack st) as [|s below] eqn:Es.
  - now apply root_at_bottom_nonempty in Hstack.
  - destruct (first_match U (tokens s) t (cursor st)) as [[r e]|] eqn:Ef.
    + apply first_match_some in Ef. destruct Ef as [Hin Hm].
      destruct (tokens_emit s r Hin) as [ty ->].
      exists ty, {| cursor := e;
                    state_stack := apply_action (action r) (s :: below) |}.
      split; [reflexivity|]. simpl. split.
      * split.
        -- apply (rexmatch_progress U (pattern r) t); eauto using tokens_consume.
        -- apply (rexmatch_bounds U (pattern r) t (cursor st)); [lia|exact Hm].
      * now apply apply_action_root_at_bottom.
    + exists Error, {| cursor := S (cursor st); state_stack := s :: below |}.
      split; [reflexivity|]. simpl. split; [lia|exact Hstack].
Qed.

End ScannerFacts.

(** ** Slices and tilings *)

Lemma firstn_then_firstn {A} (n m : nat) : forall l : list A,
  firstn n l ++ firstn m (skipn n l) = firstn (n + m) l.
Proof.
  induction n as [|n IH]; intros [|x l]; simpl; try reflexivity.
  - now rewrite firstn_nil.
  - now rewrite IH.
Qed.

Lemma substring_join (t : list char) (a b c : nat) :
  a <= b -> b <= c ->
  substring t a b ++ substring t b c = substring t a c.
Proof.
  intros Hab Hbc. unfold substring.
  replace (skipn b t) with (skipn (b - a) (skipn a t)).
  - rewrite firstn_then_firstn. f_equal. lia.
  - rewrite skipn_skipn. f_equal. lia.
Qed.

Lemma substring_whole (t : list char) : substring t 0 (length t) = t.
Proof. unfold substring. simpl. rewrite Nat.sub_0_r. apply firstn_all. Qed.

Lemma substring_empty (t : list char) (a : nat) : substring t a a = [].
Proof. unfold substring. now rewrite Nat.sub_diag. Qed.

Lemma covers_le (t : list char) (toks : list Token) : forall a b,
  covers t a toks b -> a <= b.
Proof.
  induction toks as [|tk toks IH]; simpl; intros a b.
  - lia.
  - intros (_ & Hlt & _ & H). apply IH in H. lia.
Qed.

Lemma covers_texts (t : list char) (toks : list Token) : forall a b,
  covers t a toks b -> texts toks = substring t a b.
Proof.
  induction toks as [|tk toks IH]; simpl; intros a b.
  - intros <-. now rewrite substring_empty.
  - intros (_ & Hlt & Htext & H). unfold texts in *. simpl.
    rewrite (IH _ _ H), Htext. apply covers_le in H.
    apply substring_join; lia.
Qed.

Lemma covers_adjacent (t : list char) (toks : list Token) : forall a b i x y,
  covers t a toks b ->
  nth_error toks i = Some x -> nth_error toks (S i) = Some y ->
  end_offset x = start_offset y.
Proof.
  induction toks as [|tk toks IH]; intros a b i x y Hc.
  - destruct i; discriminate.
  - destruct Hc as (_ & _ & _ & Hc). destruct i as [|i].
    + simpl. intros [= <-]. destruct toks as [|tk' toks]; [discriminate|].
      intros [= <-]. simpl in Hc. symmetry. tauto.
    + simpl. apply (IH _ _ _ _ _ Hc).
Qed.

Lemma covers_first (t : list char) (toks : list Token) a b x :
  covers t a toks b -> hd_error toks = Some x -> start_offset x = a.
Proof.
  destruct toks as [|tk toks]; simpl; [discriminate|].
  intros (H & _) [= <-]. exact H.
Qed.

Lemma covers_last (t : list char) (toks : list Token) : forall a b before x,
  covers t a toks b -> toks = before ++ [x] -> end_offset x = b.
Proof.
  induction toks as [|tk toks IH]; intros a b before x Hc E.
  - destruct before; discriminate.
  - destruct Hc as (_ & _ & _ & Hc). destruct before as [|y before].
    + simpl in E. injection E as -> ->. exact Hc.
    + simpl in E. injection E as -> E. apply (IH _ _ _ _ Hc E).
Qed.

Lemma covers_slice (t : list char) (toks : list Token) : forall a b x,
  covers t a toks b -> In x toks ->
  start_offset x < end_offset x /\
  text x = substring t (start_offset x) (end_offset x).
Proof.
  induction toks as [|tk toks IH]; intros a b x Hc; [intros []|].
  destruct Hc as (Hs & Hlt & Htext & Hc). intros [<-|Hin].
  - rewrite Hs. split; [lia|exact Htext].
  - apply (IH _ _ _ Hc Hin).
Qed.

(** ** The loop *)

Section LoopFacts.

Variable U : UnicodeData.

(** With one unit of fuel per character left, the loop runs to the end of
    the input, and its tokens tile what was left of the text. *)
Lemma scan_covers (t : list char) : forall fuel st,
  root_at_bottom (state_stack st) ->
  cursor st <= length t ->
  length t - cursor st <= fuel ->
  exists toks,
    scan U fuel t st = Done toks /\ covers t (cursor st) toks (length t).
Proof.
  induction fuel as [|fuel IH]; intros st Hstack Hle Hfuel; simpl.
  - destruct (Nat.leb_spec (length t) (cursor st)); [|lia].
    exists []. split; [reflexivity|]. simpl. lia.
  - destruct (Nat.leb_spec (length t) (cursor st)).
    + exists []. split; [reflexivity|]. simpl. lia.
    + destruct (step_turn U t st Hstack) as (ty & st' & -> & Hcur & Hst');
        [assumption|].
      destruct (IH st' Hst') as (more & -> & Hmore); [lia|lia|].
      exists (token ty t (cursor st) (cursor st') :: more).
      split; [reflexivity|]. simpl. repeat split; try lia. exact Hmore.
Qed.

(** More fuel does not change a finished run. *)
Lemma scan_more_fuel (t : list char) : forall fuel fuel' st toks,
  scan U fuel t st = Done toks ->
  fuel <= fuel' ->
  scan U fuel' t st = Done toks.
Proof.
  induction fuel as [|fuel IH]; intros fuel' st toks; simpl.
  - destruct (length t <=? cursor st) eqn:E; [|discriminate].
    intros H _. destruct fuel'; simpl; now rewrite E.
  - destruct (length t <=? cursor st) eqn:E.
    + intros H _. destruct fuel'; simpl; now rewrite E.
    + intros H Hle. destruct fuel' as [|fuel']; [lia|]. simpl. rewrite E.
      destruct (step U t st) as [[out st']|]; [|discriminate].
      destruct (scan U fuel t st') as [more| |] eqn:Es; try discriminate.
      rewrite (IH fuel' st' more Es); [exact H|lia].
Qed.

Lemma tokenize_covers (t : list char) :
  exists toks, tokenize U t = Done toks /\ covers t 0 toks (length t).
Proof.
  destruct (scan_covers t (length t) initial) as (toks & H & Hc);
    [apply root_at_bottom_initial|simpl; lia|simpl; lia|].
  exists toks. split; assumption.
Qed.

Lemma reachable_inv (t : list char) (st : ScannerState) :
  reachable U t st ->
  root_at_bottom (state_stack st) /\ cursor st <= length t.
Proof.
  induction 1 as [|st toks st' _ [IHs IHc] Hcur Hstep].
  - split; [apply root_at_bottom_initial|simpl; lia].
  - destruct (step_turn U t st IHs Hcur) as (ty & st2 & E & Hc & Hs).
    rewrite E in Hstep. injection Hstep as _ <-. split; [assumption|lia].
Qed.

End LoopFacts.

(** ** Coverage, totality, termination, the stack *)

(** C1.  For every input the tokens returned by [tokenize], concatenated in
    emission order, give back the input; consecutive tokens are adjacent
    ([end_offset] of one is [start_offset] of the next), the first starts
    at offset 0, the last ends at the length of the input, and every token
    is the non-empty slice of the input between its offsets. *)
Theorem tokenize_round_trip (U : UnicodeData) (t : list char) :
  exists toks,
    tokenize U t = Done toks /\
    texts toks = t /\
    (forall i x y,
        nth_error toks i = Some x -> nth_error toks (S i) = Some y ->
        end_offset x = start_offset y) /\
    (forall x, hd_error toks = Some x -> start_offset x = 0) /\
    (forall before x, toks = before ++ [x] -> end_offset x = length t) /\
    (forall x, In x toks ->
        start_offset x < end_offset x /\
        text x = substring t (start_offset x) (end_offset x)).
Proof.
  destruct (tokenize_covers U t) as (toks & Htok & Hc).
  exists toks. split; [exact Htok|]. split.
  - rewrite (covers_texts t toks _ _ Hc). apply substring_whole.
  - repeat split.
    + intros i x y. apply (covers_adjacent t toks _ _ i x y Hc).
    + intros x. apply (covers_first t toks _ _ x Hc).
    + intros before x. apply (covers_last t toks _ _ before x Hc).
    + apply (covers_slice t toks _ _ x Hc H).
    + apply (covers_slice t toks _ _ x Hc H).
Qed.

Lemma substring_one (t : list char) (i : nat) :
  i < length t -> length (substring t i (S i)) = 1.
Proof.
  intros H. unfold substring.
  rewrite length_firstn, length_skipn. lia.
Qed.

(** C4.  [tokenize] returns a token sequence for every input.  Whenever no
    rule of the state on top of the stack matches at the cursor, the turn
    emits exactly one [Error] token of one character, the one at the
    cursor, moves the cursor by one and leaves the stack, and the loop goes
    on from there.  The input "$" gives one [Error] token of length 1. *)
Theorem tokenize_total_fallback (U : UnicodeData) :
  (forall t, exists toks, tokenize U t = Done toks) /\
  (forall t st s below,
      state_stack st = s :: below ->
      cursor st < length t ->
      first_match U (tokens s) t (cursor st) = None ->
      let tok := token Error t (cursor st) (S (cursor st)) in
      let st' := {| cursor := S (cursor st); state_stack := state_stack st |} in
      step U t st = Some ([tok], st') /\
      kind tok = error_fallback /\
      length (text tok) = 1 /\
      nth_error t (cursor st) = hd_error (text tok) /\
      forall fuel,
        scan U (S fuel) t st =
        match scan U fuel t st' with
        | Done more => Done (tok :: more)
        | o => o
        end) /\
  tokenize U (codes "$") =
    Done [{| ttype := Error; text := codes "$";
             start_offset := 0; end_offset := 1 |}].
Proof.
  split; [|split].
  - intros t. destruct (tokenize_covers U t) as (toks & H & _). eauto.
  - intros t st s below Hs Hcur Hnone tok st'.
    assert (step U t st = Some ([tok], st')) as Hstep.
    { unfold step. rewrite Hs, Hnone. subst st'. now rewrite Hs. }
    split; [exact Hstep|]. split; [reflexivity|]. split.
    { apply substring_one. exact Hcur. }
    split.
    { simpl. unfold substring.
      replace (S (cursor st) - cursor st) with 1 by lia.
      rewrite <- (firstn_skipn (cursor st) t) at 1.
      rewrite nth_error_app2; rewrite length_firstn; [|lia].
      replace (cursor st - Nat.min (cursor st) (length t)) with 0 by lia.
      destruct (skipn (cursor st) t); reflexivity. }
    intros fuel. simpl.
    destruct (Nat.leb_spec (length t) (cursor st)); [lia|].
    rewrite Hstep. reflexivity.
  - reflexivity.
Qed.

(** C7.  In every scanner state met while tokenizing, the state stack is
    not empty and has [root] as its bottom element; no action removes that
    bottom element, and [Pop] on the stack that holds [root] alone changes
    nothing. *)
Theorem stack_invariant (U : UnicodeData) (t : list char)
    (st : ScannerState) :
  reachable U t st ->
  state_stack st <> [] /\
  (exists above, state_stack st = above ++ [root]) /\
  (forall a, exists above, apply_action a (state_stack st) = above ++ [root]) /\
  apply_action Pop [root] = [root].
Proof.
  intros H. apply reachable_inv in H. destruct H as [Hs _].
  split; [now apply root_at_bottom_nonempty|]. split; [exact Hs|].
  split; [|reflexivity].
  intros a. now apply apply_action_root_at_bottom.
Qed.

(** C8.  Every pattern of every state matches non-empty strings only; every
    turn of the loop, matched rule or fallback, moves the cursor forward by
    at least one character and never past the end; so [tokenize] finishes
    within one turn per character, and more fuel gives the same result. *)
Theorem tokenize_terminates (U : UnicodeData) :
  (forall s r t i e,
      In r (tokens s) -> rexmatch U (pattern r) t i = Some e -> i < e) /\
  (forall t st toks st',
      reachable U t st -> cursor st < length t ->
      step U t st = Some (toks, st') ->
      cursor st < cursor st' <= length t) /\
  (forall t, exists toks,
      tokenize U t = Done toks /\
      length toks <= length t /\
      forall fuel, length t <= fuel -> scan U fuel t initial = Done toks).
Proof.
  split; [|split].
  - intros s r t i e Hin. apply rexmatch_progress.
    apply (tokens_consume s r Hin).
  - intros t st toks st' Hr Hcur Hstep.
    apply reachable_inv in Hr. destruct Hr as [Hs _].
    destruct (step_turn U t st Hs Hcur) as (ty & st2 & E & Hc & _).
    rewrite E in Hstep. now injection Hstep as _ <-.
  - intros t. destruct (tokenize_covers U t) as (toks & H & Hc).
    exists toks. split; [exact H|]. split.
    + clear H. assert (forall a, covers t a toks (length t) ->
                           a + length toks <= length t) as Hlen.
      { clear Hc. induction toks as [|tk toks IH]; simpl; intros a; [lia|].
        intros (_ & Hlt & _ & Hc). specialize (IH _ Hc). lia. }
      apply (Hlen 0 Hc).
    + intros fuel Hfuel. apply (scan_more_fuel U t (length t)); assumption.
Qed.

(** ** Literals and sigils *)

(** C2.  What the table yields on the four inputs of the claim: "true" is
    one [Name_Constant] token (constant-boolean), "@x" one
    [Name_Variable_Quantum] token (identifier-quantum), "@int" one
    [Name_Builtin_Quantum] token (builtin-type-quantum); "@true" is one
    token as well, but of type [Name_Builtin_Quantum], not
    [Name_Constant_Quantum]. *)
Theorem quantum_sigil_tokens (U : UnicodeData) :
  tokenize U (codes "@true") = one Name_Builtin_Quantum "@true" /\
  kinds_of (tokenize U (codes "@true")) = Some [builtin_type_quantum] /\
  kinds_of (tokenize U (codes "@true")) <> Some [constant_boolean_quantum] /\
  tokenize U (codes "true") = one Name_Constant "true" /\
  kinds_of (tokenize U (codes "true")) = Some [constant_boolean] /\
  tokenize U (codes "@x") = one Name_Variable_Quantum "@x" /\
  kinds_of (tokenize U (codes "@x")) = Some [identifier_quantum] /\
  tokenize U (codes "@int") = one Name_Builtin_Quantum "@int" /\
  kinds_of (tokenize U (codes "@int")) = Some [builtin_type_quantum].
Proof.
  repeat split; try (vm_compute; reflexivity).
  vm_compute. discriminate.
Qed.

(** C5.  "0" is one [Number_Integer] token, "3.14" one [Number_Float] token,
    "@-5" one [Number_Quantum] token; "00" is not one token: the first "0"
    matches no rule (the integer rule wants a word boundary after it) and
    becomes an [Error] token of one character, the second "0" is a
    [Number_Integer] token of one character. *)
Theorem numeric_literals (U : UnicodeData) :
  tokenize U (codes "0") = one Number_Integer "0" /\
  kinds_of (tokenize U (codes "0")) = Some [number_integer] /\
  tokenize U (codes "3.14") = one Number_Float "3.14" /\
  kinds_of (tokenize U (codes "3.14")) = Some [number_float] /\
  tokenize U (codes "@-5") = one Number_Quantum "@-5" /\
  kinds_of (tokenize U (codes "@-5")) = Some [number_quantum_integer] /\
  tokenize U (codes "00") =
    Done [ {| ttype := Error; text := codes "0";
              start_offset := 0; end_offset := 1 |};
           {| ttype := Number_Integer; text := codes "0";
              start_offset := 1; end_offset := 2 |} ] /\
  kinds_of (tokenize U (codes "00")) = Some [error_fallback; number_integer] /\
  tokenize U (codes "00") <> one Number_Integer "00".
Proof.
  repeat split; try (vm_compute; reflexivity).
  vm_compute. discriminate.
Qed.

(** ** Rules at a cursor: what the text from the cursor on decides *)

Section AtCursor.

Variable U : UnicodeData.

Lemma skipn_length_app {A} (pre l : list A) :
  skipn (length pre) (pre ++ l) = l.
Proof. induction pre; simpl; auto. Qed.

(** Matching at the end of [pre] in [pre ++ l] only looks at [l] and at the
    last character of [pre]. *)
Lemma rexmatch_at (r : regex) (pre l : list char) :
  rexmatch U r (pre ++ l) (length pre) =
  match mtch U r (prev_at (pre ++ l) (length pre), l) with
  | [] => None
  | (_, rest) :: _ => Some (length pre + (length l - length rest))
  end.
Proof.
  unfold rexmatch. rewrite skipn_length_app.
  destruct (mtch U r (prev_at (pre ++ l) (length pre), l))
    as [|[prev rest] more] eqn:E; [reflexivity|].
  assert (length rest <= length l) as H.
  { apply (mtch_le U r (prev_at (pre ++ l) (length pre), l) (prev, rest)).
    rewrite E. now left. }
  rewrite length_app. f_equal. lia.
Qed.

Lemma rexmatch_at_none (r : regex) (pre l : list char) :
  mtch U r (prev_at (pre ++ l) (length pre), l) = [] ->
  rexmatch U r (pre ++ l) (length pre) = None.
Proof. intros H. now rewrite rexmatch_at, H. Qed.

Lemma first_match_none (rs : list Rule) (t : list char) (i : nat) :
  (forall r, In r rs -> rexmatch U (pattern r) t i = None) ->
  first_match U rs t i = None.
Proof.
  induction rs as [|r rs IH]; simpl; intros H; [reflexivity|].
  rewrite (H r (or_introl eq_refl)). apply IH. intros r' Hr'.
  apply H. now right.
Qed.

Lemma substring_at (pre m rest : list char) :
  substring (pre ++ m ++ rest) (length pre) (length pre + length m) = m.
Proof.
  unfold substring. rewrite skipn_length_app.
  replace (length pre + length m - length pre) with (length m) by lia.
  rewrite firstn_app, Nat.sub_diag, firstn_all. simpl. apply app_nil_r.
Qed.

Lemma rexmatch_at_some (r : regex) (pre m rest : list char) prev' more :
  mtch U r (prev_at (pre ++ m ++ rest) (length pre), m ++ rest)
    = (prev', rest) :: more ->
  rexmatch U r (pre ++ m ++ rest) (length pre) = Some (length pre + length m).
Proof.
  intros H. rewrite rexmatch_at, H. rewrite length_app. f_equal. lia.
Qed.

(** The rule at index [k] wins when it matches and the [k] rules before it
    do not. *)
Lemma first_match_nth (t : list char) (i e : nat) (r : Rule) :
  forall rs k,
    nth_error rs k = Some r ->
    (forall r', In r' (firstn k rs) -> rexmatch U (pattern r') t i = None) ->
    rexmatch U (pattern r) t i = Some e ->
    first_match U rs t i = Some (r, e).
Proof.
  induction rs as [|r0 rs IH]; intros [|k]; simpl; try discriminate.
  - intros [= ->] _ ->. reflexivity.
  - intros Hk Hskip Hm. rewrite (Hskip r0 (or_introl eq_refl)).
    apply (IH k Hk); [|exact Hm]. intros r' Hr'. apply Hskip. now right.
Qed.

(** Conversely, the rule that wins has an index, and the rules before it do
    not match. *)
Lemma first_match_index (t : list char) (i e : nat) (r : Rule) :
  forall rs,
    first_match U rs t i = Some (r, e) ->
    exists k,
      nth_error rs k = Some r /\
      rexmatch U (pattern r) t i = Some e /\
      forall j r', j < k -> nth_error rs j = Some r' ->
                   rexmatch U (pattern r') t i = None.
Proof.
  induction rs as [|r0 rs IH]; simpl; [discriminate|].
  destruct (rexmatch U (pattern r0) t i) eqn:E.
  - intros [= <- <-]. exists 0. repeat split; [exact E|]. intros j r' Hj. lia.
  - intros H. destruct (IH H) as (k & Hk & Hm & Hbefore).
    exists (S k). repeat split; [exact Hk|exact Hm|].
    intros [|j] r' Hj; simpl.
    + now intros [= <-].
    + apply Hbefore. lia.
Qed.

(** A turn in state [s] when the text at the cursor is [m ++ rest], the rule
    at index [k] matches [m] and no earlier rule matches. *)
Lemma step_at (s : LexerState) (below : list LexerState)
    (pre m rest : list char) (k : nat) (r : Rule) (ty : TokenType)
    prev' more :
  let t := pre ++ m ++ rest in
  let prev := prev_at t (length pre) in
  nth_error (tokens s) k = Some r ->
  emit r = Some ty ->
  (forall r', In r' (firstn k (tokens s)) ->
              mtch U (pattern r') (prev, m ++ rest) = []) ->
  mtch U (pattern r) (prev, m ++ rest) = (prev', rest) :: more ->
  step U t {| cursor := length pre; state_stack := s :: below |} =
    Some ([ {| ttype := ty; text := m; start_offset := length pre;
               end_offset := length pre + length m |} ],
          {| cursor := length pre + length m;
             state_stack := apply_action (action r) (s :: below) |}).
Proof.
  intros t prev Hk Hty Hskip Hm. unfold step. simpl.
  rewrite (first_match_nth t (length pre) (length pre + length m) r
             (tokens s) k Hk).
  - rewrite Hty. unfold token, t. now rewrite substring_at.
  - intros r' Hr'. apply rexmatch_at_none. now apply Hskip.
  - apply (rexmatch_at_some _ _ _ _ prev' more). exact Hm.
Qed.

(** A turn in state [s] when no rule matches the text [c :: rest] at the
    cursor. *)
Lemma step_fallback_at (s : LexerState) (below : list LexerState)
    (pre : list char) (c : char) (rest : list char) :
  let t := pre ++ c :: rest in
  let prev := prev_at t (length pre) in
  (forall r, In r (tokens s) -> mtch U (pattern r) (prev, c :: rest) = []) ->
  step U t {| cursor := length pre; state_stack := s :: below |} =
    Some ([ {| ttype := Error; text := [c]; start_offset := length pre;
               end_offset := S (length pre) |} ],
          {| cursor := S (length pre); state_stack := s :: below |}).
Proof.
  intros t prev Hnone. unfold step. simpl.
  rewrite first_match_none.
  - unfold token, t.
    pose proof (substring_at pre [c] rest) as Hsub. simpl in Hsub.
    replace (length pre + 1) with (S (length pre)) in Hsub by lia.
    now rewrite Hsub.
  - intros r Hr. apply rexmatch_at_none. now apply Hnone.
Qed.

End AtCursor.

(** ** Comments *)

(** C3, as the table has it.  In the [root] state, with the opener "/*" at
    the cursor, the turn emits one [Comment_Multiline] token whose text is
    the opener itself, pushes the [comment_] state and moves the cursor past
    the two characters. *)
Theorem block_comment_opener (U : UnicodeData)
    (pre rest : list char) (below : list LexerState) :
  step U (pre ++ codes "/*" ++ rest)
       {| cursor := length pre; state_stack := root :: below |} =
    Some ([ {| ttype := Comment_Multiline; text := codes "/*";
               start_offset := length pre;
               end_offset := length pre + 2 |} ],
          {| cursor := length pre + 2;
             state_stack := comment_ :: root :: below |}) /\
  kind_of Comment_Multiline = comment.
Proof.
  split; [|reflexivity].
  apply (step_at U root below pre (codes "/*") rest 2
           (rule_to (Lit "/*") Comment_Multiline (Push comment_))
           Comment_Multiline (Some (ch "*")) []);
    try reflexivity.
  generalize (prev_at (pre ++ codes "/*" ++ rest) (length pre)) as prev.
  intros prev r' [<-|[<-|[]]]; vm_compute; reflexivity.
Qed.

(** C3, as stated, fails on the input that is the opener alone: the turn
    emits a token for it. *)
Lemma block_comment_opener_counterexample :
  step ascii_only (codes "/*") initial =
    Some ([ {| ttype := Comment_Multiline; text := codes "/*";
               start_offset := 0; end_offset := 2 |} ],
          {| cursor := 2; state_stack := [comment_; root] |}) /\
  ~ (exists st', step ascii_only (codes "/*") initial = Some ([], st')).
Proof.
  split; [reflexivity|]. intros [st' H]. vm_compute in H. discriminate.
Qed.

Section LineComment.

Variable U : UnicodeData.

(** [[^\n]*] before a newline: the longest run stops at the first
    newline. *)
Lemma star_until_newline (rest : list char) : forall body prev,
  ~ In (ch nl) body ->
  exists q more,
    star_match U (NoneOf [Ch nl]) prev (body ++ ch nl :: rest)
    = (q, ch nl :: rest) :: more.
Proof.
  induction body as [|c body IH]; intros prev Hnl.
  - exists prev, []. reflexivity.
  - assert (c <> ch nl) as Hc by (intros ->; apply Hnl; now left).
    assert (~ In (ch nl) body) as Hbody by (intros H; apply Hnl; now right).
    destruct (IH (Some c) Hbody) as (q & more & E).
    exists q, (more ++ [(prev, (c :: body) ++ ch nl :: rest)]).
    cbn [app star_match cclass_mem existsb citem_mem].
    apply N.eqb_neq in Hc. rewrite Hc. cbn [orb negb]. rewrite E. reflexivity.
Qed.

Lemma comment_single_match (prev : option char) (body rest : list char) :
  ~ In (ch nl) body ->
  exists more,
    mtch U (Lit "//" ;; Star (NoneOf [Ch nl]) ;; Chr (OneOf [Ch nl]))
         (prev, (codes "//" ++ body ++ [ch nl]) ++ rest)
    = (Some (ch nl), rest) :: more.
Proof.
  intros Hnl.
  destruct (star_until_newline rest body (Some (ch "/")) Hnl) as (q & more & E).
  exists (flat_map (mtch U (Chr (OneOf [Ch nl]))) more ++ []).
  rewrite <- !app_assoc.
  change (mtch U (Lit "//" ;; Star (NoneOf [Ch nl]) ;; Chr (OneOf [Ch nl]))
               (prev, codes "//" ++ body ++ [ch nl] ++ rest))
    with (flat_map (mtch U (Chr (OneOf [Ch nl])))
            (star_match U (NoneOf [Ch nl]) (Some (ch "/"))
               (body ++ ch nl :: rest)) ++ []).
  rewrite E. reflexivity.
Qed.

End LineComment.

(** C6, as the table has it.  In the [root] state, with "//" at the cursor
    and a newline further on in the input, the turn emits one
    [Comment_Single] token that runs from "//" through the first newline,
    newline included, and leaves the stack. *)
Theorem line_comment (U : UnicodeData)
    (pre body rest : list char) (below : list LexerState) :
  ~ In (ch nl) body ->
  step U (pre ++ (codes "//" ++ body ++ [ch nl]) ++ rest)
       {| cursor := length pre; state_stack := root :: below |} =
    Some ([ {| ttype := Comment_Single;
               text := codes "//" ++ body ++ [ch nl];
               start_offset := length pre;
               end_offset :=
                 length pre + length (codes "//" ++ body ++ [ch nl]) |} ],
          {| cursor := length pre + length (codes "//" ++ body ++ [ch nl]);
             state_stack := root :: below |}) /\
  kind_of Comment_Single = comment.
Proof.
  intros Hnl. split; [|reflexivity].
  set (m := codes "//" ++ body ++ [ch nl]).
  destruct (comment_single_match U (prev_at (pre ++ m ++ rest) (length pre))
              body rest Hnl)
    as (more & E).
  apply (step_at U root below pre m rest 1
           (rule (Lit "//" ;; Star (NoneOf [Ch nl]) ;; Chr (OneOf [Ch nl]))
                 Comment_Single)
           Comment_Single (Some (ch nl)) more);
    try reflexivity.
  - generalize (prev_at (pre ++ m ++ rest) (length pre)) as prev.
    intros prev r' [<-|[]]. vm_compute. reflexivity.
  - exact E.
Qed.

(** Witness of [line_comment]: the comment "//x" followed by a newline and
    the letter "y". *)
Lemma line_comment_witness :
  ~ In (ch nl) (codes "x") /\
  step ascii_only (codes "//x" ++ [ch nl] ++ codes "y") initial =
    Some ([ {| ttype := Comment_Single; text := codes "//x" ++ [ch nl];
               start_offset := 0; end_offset := 4 |} ],
          {| cursor := 4; state_stack := [root] |}).
Proof.
  split.
  - vm_compute. intros [H|[]]. discriminate.
  - apply (line_comment ascii_only [] (codes "x") (codes "y") []).
    vm_compute. intros [H|[]]. discriminate.
Defined.

(** C6, as stated, fails on a last line without a newline: "//x" gives two
    [Error] tokens for the slashes and a [Name] token, no comment token. *)
Lemma line_comment_counterexample :
  tokenize ascii_only (codes "//x") =
    Done [ {| ttype := Error; text := codes "/";
              start_offset := 0; end_offset := 1 |};
           {| ttype := Error; text := codes "/";
              start_offset := 1; end_offset := 2 |};
           {| ttype := Name; text := codes "x";
              start_offset := 2; end_offset := 3 |} ] /\
  kinds_of (tokenize ascii_only (codes "//x"))
    = Some [error_fallback; error_fallback; identifier].
Proof. split; reflexivity. Qed.

(** ** Strings *)

Section Strings.

Variable U : UnicodeData.

(** However far [[^ double quote]*] runs over a text without a double
    quote, no double quote follows. *)
Lemma no_closing_quote (cs : cclass) : forall rest prev,
  ~ In (ch dquote) rest ->
  flat_map (mtch U (Chr (OneOf [Ch dquote]))) (star_match U cs prev rest) = [].
Proof.
  induction rest as [|c rest IH]; intros prev Hq; [reflexivity|].
  assert (c <> ch dquote) as Hc by (intros ->; apply Hq; now left).
  assert (~ In (ch dquote) rest) as Hrest by (intros H; apply Hq; now right).
  apply N.eqb_neq in Hc.
  assert (mtch U (Chr (OneOf [Ch dquote])) (prev, c :: rest) = []) as Hhere.
  { cbn [mtch snd cclass_mem existsb citem_mem]. rewrite Hc. reflexivity. }
  cbn [star_match]. destruct (cclass_mem U cs c).
  - rewrite flat_map_app, (IH _ Hrest). cbn [flat_map app].
    rewrite Hhere. reflexivity.
  - cbn [flat_map]. rewrite Hhere. reflexivity.
Qed.

Lemma string_unterminated (prev : option char) (rest : list char) :
  ~ In (ch dquote) rest ->
  mtch U re_string (prev, ch dquote :: rest) = [].
Proof.
  intros Hq.
  change (mtch U re_string (prev, ch dquote :: rest))
    with (flat_map (mtch U (Chr (OneOf [Ch dquote])))
            (star_match U (NoneOf [Ch dquote]) (Some (ch dquote)) rest) ++ []).
  now rewrite no_closing_quote.
Qed.

(** No other rule of [root] starts with a double quote. *)
Lemma root_rules_on_quote (prev : option char) (rest : list char) (r : Rule) :
  ~ In (ch dquote) rest ->
  In r (tokens root) ->
  mtch U (pattern r) (prev, ch dquote :: rest) = [].
Proof.
  intros Hq Hr. unfold tokens in Hr. simpl in Hr.
  repeat (destruct Hr as [<-|Hr]; [try (vm_compute; reflexivity)|]);
    try contradiction.
  - unfold bwords. cbn [pattern rule mtch].
    destruct (at_boundary U (prev, ch dquote :: rest));
      vm_compute; reflexivity.
  - unfold bwords. cbn [pattern rule mtch].
    destruct (at_boundary U (prev, ch dquote :: rest));
      vm_compute; reflexivity.
  - now apply string_unterminated.
Qed.

End Strings.

(** C10.  In the [root] state, when the text at the cursor starts with a
    double quote and holds no further double quote up to the end of the
    input, the string rule does not match there; the turn emits the opening
    quote as an [Error] token of one character and moves the cursor to the
    next character, in the same state. *)
Theorem unterminated_string (U : UnicodeData)
    (pre rest : list char) (below : list LexerState) :
  ~ In (ch dquote) rest ->
  In (rule re_string String_) (tokens root) /\
  rexmatch U re_string (pre ++ ch dquote :: rest) (length pre) = None /\
  step U (pre ++ ch dquote :: rest)
       {| cursor := length pre; state_stack := root :: below |} =
    Some ([ {| ttype := Error; text := [ch dquote];
               start_offset := length pre;
               end_offset := S (length pre) |} ],
          {| cursor := S (length pre); state_stack := root :: below |}) /\
  kind_of Error = error_fallback.
Proof.
  intros Hq. split; [|split; [|split]].
  - simpl. tauto.
  - apply rexmatch_at_none. now apply string_unterminated.
  - apply (step_fallback_at U root below pre (ch dquote) rest).
    intros r Hr. now apply root_rules_on_quote.
  - reflexivity.
Qed.

(** Witness of [unterminated_string]: a double quote followed by "ab". *)
Lemma unterminated_string_witness :
  ~ In (ch dquote) (codes "ab") /\
  step ascii_only (ch dquote :: codes "ab") initial =
    Some ([ {| ttype := Error; text := [ch dquote];
               start_offset := 0; end_offset := 1 |} ],
          {| cursor := 1; state_stack := [root] |}).
Proof.
  assert (~ In (ch dquote) (codes "ab")) as Hq.
  { vm_compute. intros [H|[H|[]]]; discriminate. }
  split; [exact Hq|].
  apply (unterminated_string ascii_only [] (codes "ab") [] Hq).
Defined.

(** ** The quantum boolean rule *)

Section QuantumBoolean.

Variable U : UnicodeData.

Lemma rexmatch_none_iff (r : regex) (t : list char) (i : nat) :
  rexmatch U r t i = None <-> mtch U r (prev_at t i, skipn i t) = [].
Proof.
  unfold rexmatch.
  destruct (mtch U r (prev_at t i, skipn i t)) as [|[prev rest] more];
    split; intros H; try reflexivity; discriminate.
Qed.

(** A longer word list matches wherever a shorter one does. *)
Lemma words_incl (ws ws' : list string) (p : mpos) :
  incl ws ws' -> incl (mtch U (words ws) p) (mtch U (words ws') p).
Proof.
  intros Hincl q. unfold words. cbn [mtch].
  rewrite !in_flat_map. intros (m & Hm & Hq). exists m. split; [|exact Hq].
  rewrite in_flat_map in *. destruct Hm as (w & Hw & Hm).
  exists w. split; [now apply Hincl|exact Hm].
Qed.

(** The leading [\b] only restricts the match. *)
Lemma bwords_incl (ws : list string) (p : mpos) :
  incl (mtch U (bwords ws) p) (mtch U (words ws) p).
Proof.
  intros q. unfold bwords, words. cbn [mtch].
  destruct (at_boundary U p); cbn [flat_map]; [|intros []].
  now rewrite app_nil_r.
Qed.

Lemma bwords_boundary (ws : list string) (p : mpos) :
  mtch U (bwords ws) p <> [] -> at_boundary U p = true.
Proof.
  unfold bwords. cbn [mtch].
  destruct (at_boundary U p); cbn [flat_map]; congruence.
Qed.

Lemma quantum_bool_literals_incl :
  incl quantum_bool_literals builtin_types_quantum.
Proof. intros w [<-|[<-|[]]]; simpl; tauto. Qed.

(** Where the quantum boolean rule matches, the quantum builtin-type rule
    matches as well. *)
Lemma quantum_bool_shadowed (t : list char) (i e : nat) :
  rexmatch U (bwords quantum_bool_literals) t i = Some e ->
  rexmatch U (words builtin_types_quantum) t i <> None.
Proof.
  intros Hm Hnone. apply rexmatch_none_iff in Hnone.
  unfold rexmatch in Hm.
  destruct (mtch U (bwords quantum_bool_literals) (prev_at t i, skipn i t))
    as [|q more] eqn:E; [discriminate|].
  assert (In q (mtch U (words builtin_types_quantum) (prev_at t i, skipn i t)))
    as Hq.
  { apply (words_incl quantum_bool_literals); [apply quantum_bool_literals_incl|].
    apply bwords_incl. rewrite E. now left. }
  rewrite Hnone in Hq. destruct Hq.
Qed.

(** In [root] the rule that wins is never the quantum boolean one. *)
Lemma root_never_quantum_bool (t : list char) (i e : nat) (r : Rule) :
  first_match U (tokens root) t i = Some (r, e) ->
  emit r <> Some Name_Constant_Quantum.
Proof.
  intros H Hemit. apply first_match_index in H.
  destruct H as (k & Hk & Hm & Hbefore).
  assert (k = 9) as ->.
  { do 29 (destruct k as [|k];
           [try reflexivity; simpl in Hk; injection Hk as <-; discriminate|]).
    simpl in Hk. destruct k; discriminate Hk. }
  simpl in Hk. injection Hk as <-.
  apply (quantum_bool_shadowed t i e Hm).
  apply (Hbefore 7 (rule (words builtin_types_quantum) Name_Builtin_Quantum));
    [lia|reflexivity].
Qed.

Lemma other_states_no_quantum_bool (s : LexerState) (r : Rule) :
  s <> root -> In r (tokens s) -> emit r <> Some Name_Constant_Quantum.
Proof.
  intros Hs Hr.
  destruct s; [congruence| | |]; simpl in Hr;
    repeat (destruct Hr as [<-|Hr]; [discriminate|]); destruct Hr.
Qed.

Lemma step_no_quantum_bool (t : list char) (st st' : ScannerState)
    (toks : list Token) :
  step U t st = Some (toks, st') ->
  Forall (fun x => ttype x <> Name_Constant_Quantum) toks.
Proof.
  unfold step. destruct (state_stack st) as [|s below]; [discriminate|].
  destruct (first_match U (tokens s) t (cursor st)) as [[r e]|] eqn:E.
  - intros [= <- _]. destruct (emit r) as [ty|] eqn:Ety; constructor; [|constructor].
    simpl. intros ->.
    destruct s.
    + now apply (root_never_quantum_bool _ _ _ _ E).
    + apply first_match_some in E.
      apply (other_states_no_quantum_bool comment_ r); [discriminate|tauto|exact Ety].
    + apply first_match_some in E.
      apply (other_states_no_quantum_bool trait_list r); [discriminate|tauto|exact Ety].
    + apply first_match_some in E.
      apply (other_states_no_quantum_bool modifier r); [discriminate|tauto|exact Ety].
  - intros [= <- _]. constructor; [discriminate|constructor].
Qed.

Lemma scan_no_quantum_bool (t : list char) : forall fuel st toks,
  scan U fuel t st = Done toks ->
  Forall (fun x => ttype x <> Name_Constant_Quantum) toks.
Proof.
  induction fuel as [|fuel IH]; intros st toks; simpl.
  - destruct (length t <=? cursor st); [|discriminate].
    intros [= <-]. constructor.
  - destruct (length t <=? cursor st); [intros [= <-]; constructor|].
    destruct (step U t st) as [[out st']|] eqn:Es; [|discriminate].
    destruct (scan U fuel t st') as [more| |] eqn:E; try discriminate.
    intros [= <-]. apply Forall_app. split.
    + apply (step_no_quantum_bool _ _ _ _ Es).
    + apply (IH _ _ E).
Qed.

Lemma kind_of_quantum_bool (ty : TokenType) :
  kind_of ty = constant_boolean_quantum -> ty = Name_Constant_Quantum.
Proof. destruct ty; simpl; congruence. Qed.

End QuantumBoolean.

(** C9.  For every input, no token of the output has the kind
    constant-boolean-quantum: in [root] the rule that wins is never the
    quantum boolean rule, because both of its words are in the quantum
    builtin-type list, whose rule stands earlier in the table and matches
    wherever the quantum boolean rule does; the quantum boolean rule
    moreover only matches at a word boundary just before the "@". *)
Theorem no_quantum_boolean_token (U : UnicodeData) :
  (forall t, exists toks,
      tokenize U t = Done toks /\
      forall x, In x toks -> kind x <> constant_boolean_quantum) /\
  (forall t i r e,
      first_match U (tokens root) t i = Some (r, e) ->
      emit r <> Some Name_Constant_Quantum) /\
  (forall w, In w quantum_bool_literals -> In w builtin_types_quantum) /\
  nth_error (tokens root) 7 =
    Some (rule (words builtin_types_quantum) Name_Builtin_Quantum) /\
  nth_error (tokens root) 9 =
    Some (rule (bwords quantum_bool_literals) Name_Constant_Quantum) /\
  (forall t i e,
      rexmatch U (bwords quantum_bool_literals) t i = Some e ->
      rexmatch U (words builtin_types_quantum) t i <> None /\
      at_boundary U (prev_at t i, skipn i t) = true).
Proof.
  split; [|split; [|split; [|split; [|split]]]].
  - intros t. destruct (tokenize_covers U t) as (toks & H & _).
    exists toks. split; [exact H|]. intros x Hx Hk.
    apply kind_of_quantum_bool in Hk.
    pose proof (scan_no_quantum_bool U t _ _ _ H) as Hall.
    rewrite Forall_forall in Hall. now apply (Hall x Hx).
  - intros t i r e. apply root_never_quantum_bool.
  - apply quantum_bool_literals_incl.
  - reflexivity.
  - reflexivity.
  - intros t i e H. split; [now apply (quantum_bool_shadowed U t i e)|].
    apply (bwords_boundary U quantum_bool_literals).
    intros Hnil. apply rexmatch_none_iff in Hnil. congruence.
Qed.

(** ** Word lists and the order of their alternatives *)

Section WordLists.

Variable U : UnicodeData.

Lemma lit_match_prefix (s : list char) : forall (p q : mpos),
  lit_match s p = Some q -> is_prefix s (snd p) = true.
Proof.
  induction s as [|a s IH]; intros [prev rest] q; simpl; [reflexivity|].
  destruct rest as [|c rest]; [discriminate|].
  rewrite (N.eqb_sym a c). destruct (c =? a)%N; [|discriminate].
  intros H. apply IH in H. exact H.
Qed.

Lemma is_prefix_chain (l : list char) : forall a b,
  is_prefix a l = true -> is_prefix b l = true ->
  is_prefix a b = true \/ is_prefix b a = true.
Proof.
  induction l as [|c l IH]; intros [|x a] [|y b]; simpl; auto; try discriminate.
  intros Ha Hb. apply andb_true_iff in Ha, Hb.
  destruct Ha as [Hx Ha], Hb as [Hy Hb].
  apply N.eqb_eq in Hx, Hy. subst. rewrite N.eqb_refl. simpl.
  now apply IH.
Qed.

Lemma prefix_free_spec (ws : list string) (w w' : string) :
  prefix_free ws = true -> In w ws -> In w' ws ->
  is_prefix (codes w) (codes w') = true -> w = w'.
Proof.
  unfold prefix_free. rewrite forallb_forall. intros H Hw Hw' Hp.
  specialize (H w Hw). rewrite forallb_forall in H. specialize (H w' Hw').
  rewrite Hp in H. simpl in H. rewrite orb_false_r in H.
  now apply String.eqb_eq.
Qed.

(** Over a prefix-free list at most one word matches at a position: the
    alternation has the same match whatever the order of its words. *)
Lemma words_one_match (ws : list string) (p q q' : mpos) :
  prefix_free ws = true ->
  In q (mtch U (Words ws) p) -> In q' (mtch U (Words ws) p) -> q = q'.
Proof.
  intros Hfree. cbn [mtch]. rewrite !in_flat_map.
  intros (w & Hw & Hq) (w' & Hw' & Hq').
  destruct (lit_match (codes w) p) as [m|] eqn:E; [|destruct Hq].
  destruct (lit_match (codes w') p) as [m'|] eqn:E'; [|destruct Hq'].
  destruct Hq as [<-|[]]. destruct Hq' as [<-|[]].
  assert (w = w') as <-.
  { destruct (is_prefix_chain (snd p) (codes w) (codes w')) as [H|H];
      eauto using lit_match_prefix.
    - now apply (prefix_free_spec ws).
    - symmetry. now apply (prefix_free_spec ws). }
  congruence.
Qed.

Lemma words_prefix_free :
  prefix_free keywords_decl = true /\
  prefix_free keywords_type = true /\
  prefix_free keywords_reserved = true /\
  prefix_free builtin_types_classical = true /\
  prefix_free builtin_types_quantum = true /\
  prefix_free bool_literals = true /\
  prefix_free quantum_bool_literals = true.
Proof. repeat split; reflexivity. Qed.

(** A run of a class always has a result (the empty run at least). *)
Lemma star_match_nonempty (cs : cclass) (prev : option char)
    (rest : list char) :
  star_match U cs prev rest <> [].
Proof.
  destruct rest as [|c rest]; simpl; [discriminate|].
  destruct (cclass_mem U cs c); [|discriminate].
  destruct (star_match U cs (Some c) rest); discriminate.
Qed.

(** In every state the first rule of the list matches a newline: the
    fallback token is never a newline. *)
Lemma newline_matched (s : LexerState) (pre rest : list char) :
  first_match U (tokens s) (pre ++ ch nl :: rest) (length pre) <> None.
Proof.
  assert (forall cs prev,
             cclass_mem U cs (ch nl) = true ->
             mtch U (Plus cs) (prev, ch nl :: rest) <> []) as Hplus.
  { intros cs prev Hmem. cbn [mtch snd]. rewrite Hmem.
    apply star_match_nonempty. }
  set (prev := prev_at (pre ++ ch nl :: rest) (length pre)).
  destruct s; cbn [tokens first_match pattern rule]; rewrite rexmatch_at;
    fold prev.
  - specialize (Hplus (OneOf [Ch " "; Ch tab; Ch cr; Ch nl; Ch ","; Ch ";"])
                      prev eq_refl).
    destruct (mtch U _ (prev, ch nl :: rest)) as [|[? ?] ?];
      [congruence|discriminate].
  - discriminate.
  - specialize (Hplus space prev eq_refl).
    destruct (mtch U _ (prev, ch nl :: rest)) as [|[? ?] ?];
      [congruence|discriminate].
  - specialize (Hplus space prev eq_refl).
    destruct (mtch U _ (prev, ch nl :: rest)) as [|[? ?] ?];
      [congruence|discriminate].
Qed.

End WordLists.

(** Witness of [stack_invariant]: after the opener of a block comment the
    stack holds [comment_] over [root]. *)
Lemma stack_invariant_witness :
  reachable ascii_only (codes "/*a")
            {| cursor := 2; state_stack := [comment_; root] |} /\
  [comment_; root] <> [] /\
  (exists above, [comment_; root] = above ++ [root]).
Proof.
  assert (reachable ascii_only (codes "/*a")
            {| cursor := 2; state_stack := [comment_; root] |}) as Hreach.
  { apply (reach_step ascii_only (codes "/*a") initial
             [token Comment_Multiline (codes "/*a") 0 2]).
    - apply reach_initial.
    - simpl. lia.
    - reflexivity. }
  split; [exact Hreach|].
  destruct (stack_invariant ascii_only (codes "/*a") _ Hreach) as (H1 & H2 & _).
  split; assumption.
Defined.

(** * Further properties of the table and of the loop *)

(** ** What every token of a run satisfies *)

Section TokensOfARun.

Variable U : UnicodeData.

(** A property of the tokens of every turn is a property of the tokens of
    the run. *)
Lemma scan_tokens_all (P : Token -> Prop) (t : list char) :
  (forall st toks st',
      cursor st < length t -> step U t st = Some (toks, st') ->
      Forall P toks) ->
  forall fuel st toks, scan U fuel t st = Done toks -> Forall P toks.
Proof.
  intros Hstep. induction fuel as [|fuel IH]; intros st toks; simpl.
  - destruct (length t <=? cursor st); [|discriminate].
    intros [= <-]. constructor.
  - destruct (Nat.leb_spec (length t) (cursor st));
      [intros [= <-]; constructor|].
    destruct (step U t st) as [[out st']|] eqn:Es; [|discriminate].
    destruct (scan U fuel t st') as [more| |] eqn:E; try discriminate.
    intros [= <-]. apply Forall_app. split.
    + apply (Hstep st out st'); assumption.
    + apply (IH _ _ E).
Qed.

Lemma no_rule_emits_error (s : LexerState) (r : Rule) :
  In r (tokens s) -> emit r <> Some Error.
Proof.
  intros Hr.
  destruct s; simpl in Hr;
    repeat (destruct Hr as [<-|Hr]; [discriminate|]); destruct Hr.
Qed.

Lemma substring_char (t : list char) (i : nat) (c : char) :
  nth_error t i = Some c -> substring t i (S i) = [c].
Proof.
  intros H. destruct (nth_error_split t i H) as (l1 & l2 & -> & <-).
  pose proof (substring_at l1 [c] l2) as Hs. simpl in Hs.
  now replace (length l1 + 1) with (S (length l1)) in Hs by lia.
Qed.

Lemma step_error_tokens (t : list char) (st st' : ScannerState)
    (toks : list Token) :
  cursor st < length t ->
  step U t st = Some (toks, st') ->
  Forall (fun x => ttype x = Error ->
                   exists c, text x = [c] /\ c <> ch nl /\
                             nth_error t (start_offset x) = Some c) toks.
Proof.
  intros Hcur. unfold step.
  destruct (state_stack st) as [|s below]; [discriminate|].
  destruct (first_match U (tokens s) t (cursor st)) as [[r e]|] eqn:E.
  - intros [= <- _]. apply first_match_some in E. destruct E as [Hin _].
    destruct (emit r) as [ty|] eqn:Ety; constructor; [|constructor].
    simpl. intros ->. now destruct (no_rule_emits_error s r Hin).
  - intros [= <- _]. constructor; [|constructor]. intros _. simpl.
    destruct (nth_error t (cursor st)) as [c|] eqn:Ec.
    + exists c. split; [now apply substring_char|]. split; [|reflexivity].
      intros ->. destruct (nth_error_split t (cursor st) Ec)
        as (l1 & l2 & -> & Hlen).
      rewrite <- Hlen in E. now apply (newline_matched U s l1 l2).
    + apply nth_error_None in Ec. lia.
Qed.

End TokensOfARun.

(** X1.  Every [Error] token of a run is one character of the input, the
    one at its start offset, and that character is never a newline: no rule
    of the table emits [Error], and in every state the first rule takes a
    newline. *)
Theorem error_tokens_single_character (U : UnicodeData) (t : list char) :
  exists toks,
    tokenize U t = Done toks /\
    forall x, In x toks -> ttype x = Error ->
      exists c, text x = [c] /\ c <> ch nl /\
                nth_error t (start_offset x) = Some c.
Proof.
  destruct (tokenize_covers U t) as (toks & H & _).
  exists toks. split; [exact H|].
  pose proof (scan_tokens_all U _ t
                (fun st toks st' => step_error_tokens U t st st' toks)
                _ _ _ H) as Hall.
  rewrite Forall_forall in Hall. exact Hall.
Qed.

(** ** The shape of the stack *)

Lemma actions_of_root (r : Rule) :
  In r (tokens root) ->
  action r = Stay \/ action r = Push comment_ \/
  action r = Push trait_list \/ action r = Push modifier.
Proof.
  intros Hr. simpl in Hr.
  repeat (destruct Hr as [<-|Hr]; [simpl; tauto|]); destruct Hr.
Qed.

Lemma actions_of_comment (r : Rule) :
  In r (tokens comment_) ->
  action r = Stay \/ action r = PushSame \/ action r = Pop.
Proof.
  intros Hr. simpl in Hr.
  repeat (destruct Hr as [<-|Hr]; [simpl; tauto|]); destruct Hr.
Qed.

Lemma actions_of_brackets (s : LexerState) (r : Rule) :
  s = trait_list \/ s = modifier ->
  In r (tokens s) ->
  action r = Stay \/ action r = Pop.
Proof.
  intros [-> | ->] Hr; simpl in Hr;
    repeat (destruct Hr as [<-|Hr]; [simpl; tauto|]); destruct Hr.
Qed.

Lemma stack_shape_initial : stack_shape (state_stack initial).
Proof. left. exists 0. reflexivity. Qed.

Lemma stack_shape_action (s : LexerState) (below : list LexerState)
    (r : Rule) :
  stack_shape (s :: below) ->
  In r (tokens s) ->
  stack_shape (apply_action (action r) (s :: below)).
Proof.
  intros Hshape Hr. destruct Hshape as [[depth E]|[E|E]].
  - destruct depth as [|depth]; simpl in E; injection E as -> ->.
    + destruct (actions_of_root r Hr) as [-> |[-> |[-> | ->]]]; simpl.
      * left. now exists 0.
      * left. now exists 1.
      * right. now left.
      * right. now right.
    + destruct (actions_of_comment r Hr) as [-> |[-> | ->]]; simpl.
      * left. now exists (S depth).
      * left. now exists (S (S depth)).
      * left. now exists depth.
  - injection E as -> ->.
    destruct (actions_of_brackets trait_list r (or_introl eq_refl) Hr)
      as [-> | ->]; simpl.
    + right. now left.
    + left. now exists 0.
  - injection E as -> ->.
    destruct (actions_of_brackets modifier r (or_intror eq_refl) Hr)
      as [-> | ->]; simpl.
    + right. now right.
    + left. now exists 0.
Qed.

Lemma step_stack_shape (U : UnicodeData) (t : list char)
    (st st' : ScannerState) (toks : list Token) :
  stack_shape (state_stack st) ->
  step U t st = Some (toks, st') ->
  stack_shape (state_stack st').
Proof.
  intros Hshape. unfold step.
  destruct (state_stack st) as [|s below]; [discriminate|].
  destruct (first_match U (tokens s) t (cursor st)) as [[r e]|] eqn:E.
  - intros [= _ <-]. simpl. apply first_match_some in E.
    now apply stack_shape_action.
  - intros [= _ <-]. exact Hshape.
Qed.

Lemma stack_shape_pop (stack : list LexerState) :
  stack_shape stack ->
  apply_action Pop stack =
    match stack with
    | _ :: (_ :: _) as below => below
    | _ => stack
    end.
Proof.
  intros [[depth ->]|[-> | ->]]; try reflexivity.
  destruct depth as [|depth]; [reflexivity|]. simpl.
  destruct depth; reflexivity.
Qed.

(** X2.  In every scanner state met while tokenizing, the stack is either
    block comments nested to some depth over [root], or [trait_list] over
    [root], or [modifier] over [root]: [root] occurs at the bottom only,
    the two bracket states never nest, and only block comments do.  On such
    a stack "#pop" removes the top exactly when the stack holds more than
    one state. *)
Theorem reachable_stack_shape (U : UnicodeData) (t : list char)
    (st : ScannerState) :
  reachable U t st ->
  ((exists depth, state_stack st = repeat comment_ depth ++ [root]) \/
   state_stack st = [trait_list; root] \/
   state_stack st = [modifier; root]) /\
  count_occ LexerState_eq_dec (state_stack st) root = 1 /\
  apply_action Pop (state_stack st) =
    match state_stack st with
    | _ :: (_ :: _) as below => below
    | _ => state_stack st
    end.
Proof.
  intros Hreach.
  assert (stack_shape (state_stack st)) as Hshape.
  { induction Hreach as [|st toks st' _ IH _ Hstep].
    - apply stack_shape_initial.
    - apply (step_stack_shape U t st st' toks IH Hstep). }
  split; [exact Hshape|]. split; [|now apply stack_shape_pop].
  destruct Hshape as [[depth ->]|[-> | ->]]; try reflexivity.
  rewrite count_occ_app. simpl.
  induction depth as [|depth IH]; [reflexivity|]. simpl. exact IH.
Qed.

(** Witness of [reachable_stack_shape]: two openers in a row give two
    nested block comments. *)
Lemma reachable_stack_shape_witness :
  reachable ascii_only (codes "/*/*x")
            {| cursor := 4; state_stack := [comment_; comment_; root] |} /\
  ((exists depth, [comment_; comment_; root] = repeat comment_ depth ++ [root]) \/
   [comment_; comment_; root] = [trait_list; root] \/
   [comment_; comment_; root] = [modifier; root]).
Proof.
  assert (reachable ascii_only (codes "/*/*x")
            {| cursor := 4; state_stack := [comment_; comment_; root] |})
    as Hreach.
  { apply (reach_step ascii_only (codes "/*/*x")
             {| cursor := 2; state_stack := [comment_; root] |}
             [token Comment_Multiline (codes "/*/*x") 2 4]).
    - apply (reach_step ascii_only (codes "/*/*x") initial
               [token Comment_Multiline (codes "/*/*x") 0 2]).
      + apply reach_initial.
      + simpl. lia.
      + reflexivity.
    - simpl. lia.
    - reflexivity. }
  split; [exact Hreach|].
  destruct (reachable_stack_shape ascii_only (codes "/*/*x") _ Hreach)
    as (H & _).
  exact H.
Defined.

(** ** Inside a block comment *)

Section InsideComment.

Variable U : UnicodeData.

Lemma comment_char_other (prev : option char) (c : char) (rest : list char) :
  c <> ch "*" -> c <> ch "/" ->
  mtch U (Chr (NoneOf [Ch "*"; Ch "/"])) (prev, c :: rest) = [(Some c, rest)].
Proof.
  intros H1 H2. apply N.eqb_neq in H1, H2.
  cbn [mtch snd cclass_mem existsb citem_mem]. now rewrite H1, H2.
Qed.

Lemma lit2_mismatch (prev : option char) (a b : ascii) (d : char)
    (rest : list char) :
  d <> ch b ->
  mtch U (Lit (String a (String b EmptyString))) (prev, ch a :: d :: rest) = [].
Proof.
  intros H. apply N.eqb_neq in H.
  cbn [mtch codes lit_match snd olist]. now rewrite N.eqb_refl, H.
Qed.

Lemma is_prefix2_false (a b : ascii) (d : char) (rest : list char) :
  is_prefix (codes (String a (String b EmptyString))) (ch a :: d :: rest)
    = false ->
  d <> ch b.
Proof.
  cbn [codes is_prefix]. rewrite N.eqb_refl. simpl.
  rewrite andb_true_r. intros H ->. now rewrite N.eqb_refl in H.
Qed.

(** One character of a comment that starts neither an opener nor a
    closer. *)
Lemma comment_plain_turn (pre : list char) (c : char) (rest : list char)
    (below : list LexerState) :
  is_prefix (codes "/*") (c :: rest) = false ->
  is_prefix (codes "*/") (c :: rest) = false ->
  step U (pre ++ c :: rest)
       {| cursor := length pre; state_stack := comment_ :: below |} =
    Some ([ {| ttype := Comment_Multiline; text := [c];
               start_offset := length pre;
               end_offset := length pre + 1 |} ],
          {| cursor := length pre + 1;
             state_stack := comment_ :: below |}).
Proof.
  intros Hopen Hclose.
  set (prev := prev_at (pre ++ [c] ++ rest) (length pre)).
  destruct (N.eq_dec c (ch "/")) as [-> |Hslash];
    [|destruct (N.eq_dec c (ch "*")) as [-> |Hstar]].
  - apply (step_at U comment_ below pre [ch "/"] rest 3
             (rule (Chr (OneOf [Ch "*"; Ch "/"])) Comment_Multiline)
             Comment_Multiline (Some (ch "/")) []);
      try reflexivity.
    fold prev. intros r' [<-|[<-|[<-|[]]]]; try (vm_compute; reflexivity).
    destruct rest as [|d rest]; [vm_compute; reflexivity|].
    apply (lit2_mismatch prev "/" "*"). now apply (is_prefix2_false "/" "*" d rest).
  - apply (step_at U comment_ below pre [ch "*"] rest 3
             (rule (Chr (OneOf [Ch "*"; Ch "/"])) Comment_Multiline)
             Comment_Multiline (Some (ch "*")) []);
      try reflexivity.
    fold prev. intros r' [<-|[<-|[<-|[]]]]; try (vm_compute; reflexivity).
    destruct rest as [|d rest]; [vm_compute; reflexivity|].
    apply (lit2_mismatch prev "*" "/"). now apply (is_prefix2_false "*" "/" d rest).
  - apply (step_at U comment_ below pre [c] rest 0
             (rule (Chr (NoneOf [Ch "*"; Ch "/"])) Comment_Multiline)
             Comment_Multiline (Some c) []);
      try reflexivity.
    + intros r' [].
    + now apply comment_char_other.
Qed.

Lemma comment_open_turn (pre rest : list char) (below : list LexerState) :
  step U (pre ++ codes "/*" ++ rest)
       {| cursor := length pre; state_stack := comment_ :: below |} =
    Some ([ {| ttype := Comment_Multiline; text := codes "/*";
               start_offset := length pre;
               end_offset := length pre + 2 |} ],
          {| cursor := length pre + 2;
             state_stack := comment_ :: comment_ :: below |}).
Proof.
  apply (step_at U comment_ below pre (codes "/*") rest 1
           (rule_to (Lit "/*") Comment_Multiline PushSame)
           Comment_Multiline (Some (ch "*")) []);
    try reflexivity.
  generalize (prev_at (pre ++ codes "/*" ++ rest) (length pre)) as prev.
  intros prev r' [<-|[]]; vm_compute; reflexivity.
Qed.

Lemma comment_close_turn (pre rest : list char) (below : list LexerState) :
  step U (pre ++ codes "*/" ++ rest)
       {| cursor := length pre; state_stack := comment_ :: below |} =
    Some ([ {| ttype := Comment_Multiline; text := codes "*/";
               start_offset := length pre;
               end_offset := length pre + 2 |} ],
          {| cursor := length pre + 2; state_stack := below |}).
Proof.
  apply (step_at U comment_ below pre (codes "*/") rest 2
           (rule_to (Lit "*/") Comment_Multiline Pop)
           Comment_Multiline (Some (ch "/")) []);
    try reflexivity.
  generalize (prev_at (pre ++ codes "*/" ++ rest) (length pre)) as prev.
  intros prev r' [<-|[<-|[]]]; vm_compute; reflexivity.
Qed.

End InsideComment.

(** X3.  A turn in the [comment_] state never falls back to [Error]: an
    opener "/*" at the cursor is one [Comment_Multiline] token and nests one
    level deeper, a closer "*/" is one [Comment_Multiline] token and leaves
    one level, and any other character, a lone "*" or "/" included, is a
    [Comment_Multiline] token of one character that leaves the stack. *)
Theorem comment_state_turn (U : UnicodeData) :
  (forall pre rest below,
      step U (pre ++ codes "/*" ++ rest)
           {| cursor := length pre; state_stack := comment_ :: below |} =
        Some ([ {| ttype := Comment_Multiline; text := codes "/*";
                   start_offset := length pre;
                   end_offset := length pre + 2 |} ],
              {| cursor := length pre + 2;
                 state_stack := comment_ :: comment_ :: below |})) /\
  (forall pre rest below,
      step U (pre ++ codes "*/" ++ rest)
           {| cursor := length pre; state_stack := comment_ :: below |} =
        Some ([ {| ttype := Comment_Multiline; text := codes "*/";
                   start_offset := length pre;
                   end_offset := length pre + 2 |} ],
              {| cursor := length pre + 2; state_stack := below |})) /\
  (forall pre c rest below,
      is_prefix (codes "/*") (c :: rest) = false ->
      is_prefix (codes "*/") (c :: rest) = false ->
      step U (pre ++ c :: rest)
           {| cursor := length pre; state_stack := comment_ :: below |} =
        Some ([ {| ttype := Comment_Multiline; text := [c];
                   start_offset := length pre;
                   end_offset := length pre + 1 |} ],
              {| cursor := length pre + 1;
                 state_stack := comment_ :: below |})).
Proof.
  split; [|split].
  - apply comment_open_turn.
  - apply comment_close_turn.
  - apply comment_plain_turn.
Qed.

Section UnterminatedComment.

Variable U : UnicodeData.

Lemma is_prefix_app (a : list char) : forall l,
  is_prefix a l = true -> exists rest, l = a ++ rest.
Proof.
  induction a as [|x a IH]; intros l; simpl.
  - intros _. now exists l.
  - destruct l as [|y l]; [discriminate|].
    intros H. apply andb_true_iff in H. destruct H as [Hx Ha].
    apply N.eqb_eq in Hx. subst. destruct (IH l Ha) as [rest ->].
    now exists rest.
Qed.

Lemma has_closer_tail (c : char) (l : list char) :
  has_closer (c :: l) = false ->
  is_prefix (codes "*/") (c :: l) = false /\ has_closer l = false.
Proof. cbn [has_closer]. intros H. now apply orb_false_iff in H. Qed.

Lemma scan_turn (fuel : nat) (t : list char) (st st' : ScannerState)
    (tok : Token) (more : list Token) :
  cursor st < length t ->
  step U t st = Some ([tok], st') ->
  scan U fuel t st' = Done more ->
  scan U (S fuel) t st = Done (tok :: more).
Proof.
  intros Hcur Hstep Hscan. simpl.
  destruct (Nat.leb_spec (length t) (cursor st)); [lia|].
  now rewrite Hstep, Hscan.
Qed.

(** From the [comment_] state, a text without a closer is consumed to its
    end as comment tokens. *)
Lemma comment_swallows : forall n l pre below fuel,
  length l <= n ->
  has_closer l = false ->
  length l <= fuel ->
  exists toks,
    scan U fuel (pre ++ l)
         {| cursor := length pre; state_stack := comment_ :: below |}
    = Done toks /\
    Forall (fun x => ttype x = Comment_Multiline) toks.
Proof.
  induction n as [|n IH]; intros l pre below fuel Hn Hclose Hfuel.
  - destruct l; [|simpl in Hn; lia]. exists []. split; [|constructor].
    rewrite app_nil_r. destruct fuel; simpl; now rewrite Nat.leb_refl.
  - destruct l as [|c l].
    { exists []. split; [|constructor].
      rewrite app_nil_r. destruct fuel; simpl; now rewrite Nat.leb_refl. }
    destruct fuel as [|fuel]; [simpl in Hfuel; lia|].
    destruct (has_closer_tail c l Hclose) as [Hnot Hl].
    destruct (is_prefix (codes "/*") (c :: l)) eqn:Hopen.
    + destruct (is_prefix_app _ _ Hopen) as [rest E].
      simpl in E. injection E as -> ->. simpl in Hn, Hfuel.
      destruct (has_closer_tail _ _ Hl) as [_ Hrest].
      destruct (IH rest (pre ++ codes "/*") (comment_ :: below) fuel)
        as (more & Hscan & Hall); [simpl in *; lia|exact Hrest|lia|].
      rewrite <- app_assoc, length_app in Hscan.
      eexists (_ :: more). split.
      * eapply scan_turn; [|apply comment_open_turn|exact Hscan].
        simpl. rewrite length_app. simpl. lia.
      * constructor; [reflexivity|exact Hall].
    + simpl in Hn, Hfuel.
      destruct (IH l (pre ++ [c]) below fuel) as (more & Hscan & Hall);
        [lia|exact Hl|lia|].
      rewrite <- app_assoc, length_app in Hscan.
      eexists (_ :: more). split.
      * eapply scan_turn; [|now apply comment_plain_turn|exact Hscan].
        simpl. rewrite length_app. simpl. lia.
      * constructor; [reflexivity|exact Hall].
Qed.

Lemma root_open_turn (rest : list char) :
  step U (codes "/*" ++ rest) initial =
    Some ([ {| ttype := Comment_Multiline; text := codes "/*";
               start_offset := 0; end_offset := 2 |} ],
          {| cursor := 2; state_stack := [comment_; root] |}).
Proof.
  apply (step_at U root [] [] (codes "/*") rest 2
           (rule_to (Lit "/*") Comment_Multiline (Push comment_))
           Comment_Multiline (Some (ch "*")) []);
    try reflexivity.
  intros r' [<-|[<-|[]]]; vm_compute; reflexivity.
Qed.

End UnterminatedComment.

(** X4.  A block comment that is never closed takes the rest of the input:
    from the [comment_] state, a remaining text in which "*/" does not occur
    is consumed to its end as [Comment_Multiline] tokens, whatever lies
    below on the stack; so an input that is an opener followed by such a
    text gives comment tokens only. *)
Theorem unterminated_block_comment (U : UnicodeData) (l : list char) :
  has_closer l = false ->
  (forall pre below fuel,
      length l <= fuel ->
      exists toks,
        scan U fuel (pre ++ l)
             {| cursor := length pre; state_stack := comment_ :: below |}
        = Done toks /\
        forall x, In x toks -> ttype x = Comment_Multiline) /\
  (exists toks,
      tokenize U (codes "/*" ++ l) = Done toks /\
      forall x, In x toks -> kind x = comment).
Proof.
  intros Hclose. split.
  - intros pre below fuel Hfuel.
    destruct (comment_swallows U (length l) l pre below fuel)
      as (toks & H & Hall); try lia; [exact Hclose|].
    exists toks. split; [exact H|]. now apply Forall_forall.
  - destruct (comment_swallows U (length l) l (codes "/*") [root] (S (length l)))
      as (more & H & Hall); try lia; [exact Hclose|].
    eexists (_ :: more). split.
    + unfold tokenize. simpl length.
      eapply scan_turn; [|apply root_open_turn|exact H].
      simpl. lia.
    + intros x [<-|Hx]; [reflexivity|].
      rewrite Forall_forall in Hall. unfold kind. now rewrite (Hall x Hx).
Qed.

(** Witness of [unterminated_block_comment]: an opener, then text with a
    nested opener and stray stars and slashes, but no closer. *)
Lemma unterminated_block_comment_witness :
  has_closer (codes " a /* b * / c") = false /\
  exists toks,
    tokenize ascii_only (codes "/*" ++ codes " a /* b * / c") = Done toks /\
    forall x, In x toks -> kind x = comment.
Proof.
  split; [reflexivity|].
  apply (unterminated_block_comment ascii_only (codes " a /* b * / c")).
  reflexivity.
Defined.

(** ** What a matched text looks like *)

Section MatchedText.

Variable U : UnicodeData.

Lemma lit_match_app (s : list char) : forall (p q : mpos),
  lit_match s p = Some q -> snd p = s ++ snd q.
Proof.
  induction s as [|a s IH]; intros [prev rest] q; simpl.
  - now intros [= <-].
  - destruct rest as [|c rest]; [discriminate|].
    destruct (N.eqb_spec c a) as [-> |]; [|discriminate].
    intros H. apply IH in H. simpl in H. now rewrite H.
Qed.

Lemma star_match_app (cs : cclass) : forall l prev q,
  In q (star_match U cs prev l) ->
  exists m, l = m ++ snd q /\ Forall (fun c => cclass_mem U cs c = true) m.
Proof.
  induction l as [|c l IH]; intros prev q; simpl.
  - intros [<-|[]]. now exists [].
  - destruct (cclass_mem U cs c) eqn:Ec.
    + rewrite in_app_iff. intros [H|[<-|[]]].
      * destruct (IH _ _ H) as (m & -> & Hm). exists (c :: m).
        split; [reflexivity|]. now constructor.
      * now exists [].
    + intros [<-|[]]. now exists [].
Qed.

Lemma chr_match_app (cs : cclass) (p q : mpos) :
  In q (mtch U (Chr cs) p) ->
  exists c, snd p = c :: snd q /\ cclass_mem U cs c = true.
Proof.
  destruct p as [prev [|c rest]]; simpl; [intros []|].
  destruct (cclass_mem U cs c) eqn:Ec; [|intros []].
  intros [<-|[]]. now exists c.
Qed.

Lemma substring_of_match (t : list char) (i : nat) (m rest : list char) :
  skipn i t = m ++ rest ->
  substring t i (length t - length rest) = m.
Proof.
  intros H. unfold substring. rewrite H.
  assert (length (skipn i t) = length m + length rest) as Hlen
    by (now rewrite H, length_app).
  rewrite length_skipn in Hlen.
  replace (length t - length rest - i) with (length m) by lia.
  rewrite firstn_app, Nat.sub_diag, firstn_all. simpl. apply app_nil_r.
Qed.

(** A token that is not the fallback comes from a rule of the state on top
    of the stack, and its text is what the pattern of that rule consumed. *)
Lemma step_token_origin (t : list char) (st st' : ScannerState)
    (toks : list Token) (x : Token) :
  step U t st = Some (toks, st') ->
  In x toks ->
  ttype x <> Error ->
  exists s r q,
    In r (tokens s) /\ emit r = Some (ttype x) /\
    In q (mtch U (pattern r) (prev_at t (cursor st), skipn (cursor st) t)) /\
    forall m, skipn (cursor st) t = m ++ snd q -> text x = m.
Proof.
  unfold step. destruct (state_stack st) as [|s below]; [discriminate|].
  destruct (first_match U (tokens s) t (cursor st)) as [[r e]|] eqn:E.
  - intros [= <- _] Hx _. apply first_match_some in E.
    destruct E as [Hin Hm].
    destruct (emit r) as [ty|] eqn:Ety; [|destruct Hx].
    destruct Hx as [<-|[]]. unfold rexmatch in Hm.
    destruct (mtch U (pattern r) (prev_at t (cursor st), skipn (cursor st) t))
      as [|[prev rest] more] eqn:Em; [discriminate|].
    injection Hm as <-.
    exists s, r, (prev, rest).
    split; [exact Hin|]. split; [exact Ety|].
    split; [rewrite Em; now left|].
    intros m Hskip. simpl. now apply substring_of_match.
  - intros [= <- _] [<-|[]] H. now destruct H.
Qed.

Lemma comment_single_rule (s : LexerState) (r : Rule) :
  In r (tokens s) -> emit r = Some Comment_Single ->
  pattern r = (Lit "//" ;; Star (NoneOf [Ch nl]) ;; Chr (OneOf [Ch nl]))%re.
Proof.
  intros Hr.
  destruct s; simpl in Hr;
    repeat (destruct Hr as [<-|Hr];
            [intros H; first [discriminate H|reflexivity]|]);
    destruct Hr.
Qed.

Lemma string_rule (s : LexerState) (r : Rule) :
  In r (tokens s) -> emit r = Some String_ -> pattern r = re_string.
Proof.
  intros Hr.
  destruct s; simpl in Hr;
    repeat (destruct Hr as [<-|Hr];
            [intros H; first [discriminate H|reflexivity]|]);
    destruct Hr.
Qed.

Lemma none_of_char (a : ascii) (body : list char) :
  Forall (fun c => cclass_mem U (NoneOf [Ch a]) c = true) body ->
  ~ In (ch a) body.
Proof.
  intros H Hin. rewrite Forall_forall in H. specialize (H _ Hin).
  cbn [cclass_mem existsb citem_mem] in H. now rewrite N.eqb_refl in H.
Qed.

Lemma one_char (a : ascii) (c : char) :
  cclass_mem U (OneOf [Ch a]) c = true -> c = ch a.
Proof.
  cbn [cclass_mem existsb citem_mem]. rewrite orb_false_r.
  apply N.eqb_eq.
Qed.

Lemma comment_single_text (p q : mpos) :
  In q (mtch U (Lit "//" ;; Star (NoneOf [Ch nl]) ;; Chr (OneOf [Ch nl])) p) ->
  exists body,
    snd p = (codes "//" ++ body ++ [ch nl]) ++ snd q /\ ~ In (ch nl) body.
Proof.
  cbn [mtch]. rewrite in_flat_map. intros (p1 & H1 & H).
  destruct (lit_match (codes "//") p) as [p1'|] eqn:E1; [|destruct H1].
  destruct H1 as [<-|[]]. apply lit_match_app in E1.
  rewrite in_flat_map in H. destruct H as (p2 & H2 & H3).
  apply star_match_app in H2. destruct H2 as (body & Hbody & Hall).
  apply chr_match_app in H3. destruct H3 as (c & Hc & Hmem).
  apply one_char in Hmem. subst c.
  exists body. split; [|now apply (none_of_char nl)].
  rewrite E1, Hbody, Hc. now rewrite <- !app_assoc.
Qed.

Lemma string_text (p q : mpos) :
  In q (mtch U re_string p) ->
  exists body,
    snd p = (ch dquote :: body ++ [ch dquote]) ++ snd q /\
    ~ In (ch dquote) body.
Proof.
  unfold re_string. cbn [mtch]. rewrite in_flat_map. intros (p1 & H1 & H).
  apply (chr_match_app (OneOf [Ch dquote]) p p1) in H1.
  destruct H1 as (c1 & Hc1 & Hmem1). apply one_char in Hmem1. subst c1.
  rewrite in_flat_map in H. destruct H as (p2 & H2 & H3).
  apply star_match_app in H2. destruct H2 as (body & Hbody & Hall).
  apply chr_match_app in H3. destruct H3 as (c & Hc & Hmem).
  apply one_char in Hmem. subst c.
  exists body. split; [|now apply (none_of_char dquote)].
  rewrite Hc1, Hbody, Hc. simpl. now rewrite <- !app_assoc.
Qed.

End MatchedText.

(** X5.  Every [Comment_Single] token of a run is "//", then characters
    other than a newline, then one newline: a line comment token always
    ends with the newline that closes it and holds no other. *)
Theorem comment_single_tokens (U : UnicodeData) (t : list char) :
  exists toks,
    tokenize U t = Done toks /\
    forall x, In x toks -> ttype x = Comment_Single ->
      exists body,
        text x = codes "//" ++ body ++ [ch nl] /\ ~ In (ch nl) body.
Proof.
  destruct (tokenize_covers U t) as (toks & H & _).
  exists toks. split; [exact H|].
  assert (Forall (fun x => ttype x = Comment_Single ->
                    exists body,
                      text x = codes "//" ++ body ++ [ch nl] /\
                      ~ In (ch nl) body) toks) as Hall.
  { apply (scan_tokens_all U _ t) with (fuel := length t) (st := initial);
      [|exact H].
    intros st out st' _ Hstep. apply Forall_forall. intros x Hx Hty.
    destruct (step_token_origin U t st st' out x Hstep Hx)
      as (s & r & q & Hin & Hemit & Hq & Htext); [congruence|].
    rewrite Hty in Hemit. rewrite (comment_single_rule s r Hin Hemit) in Hq.
    apply comment_single_text in Hq. destruct Hq as (body & Hskip & Hbody).
    exists body. split; [|exact Hbody]. apply Htext. exact Hskip. }
  rewrite Forall_forall in Hall. exact Hall.
Qed.

(** X6.  Every [String_] token of a run is a double quote, then characters
    other than a double quote, then a double quote: a string token is
    always closed and there is no way to put a double quote inside one. *)
Theorem string_tokens (U : UnicodeData) (t : list char) :
  exists toks,
    tokenize U t = Done toks /\
    forall x, In x toks -> ttype x = String_ ->
      exists body,
        text x = ch dquote :: body ++ [ch dquote] /\
        ~ In (ch dquote) body.
Proof.
  destruct (tokenize_covers U t) as (toks & H & _).
  exists toks. split; [exact H|].
  assert (Forall (fun x => ttype x = String_ ->
                    exists body,
                      text x = ch dquote :: body ++ [ch dquote] /\
                      ~ In (ch dquote) body) toks) as Hall.
  { apply (scan_tokens_all U _ t) with (fuel := length t) (st := initial);
      [|exact H].
    intros st out st' _ Hstep. apply Forall_forall. intros x Hx Hty.
    destruct (step_token_origin U t st st' out x Hstep Hx)
      as (s & r & q & Hin & Hemit & Hq & Htext); [congruence|].
    rewrite Hty in Hemit. rewrite (string_rule s r Hin Hemit) in Hq.
    apply string_text in Hq. destruct Hq as (body & Hskip & Hbody).
    exists body. split; [|exact Hbody]. apply Htext. exact Hskip. }
  rewrite Forall_forall in Hall. exact Hall.
Qed.

(** ** Longest runs *)

Section Runs.

Variable U : UnicodeData.

(** A greedy run over [body ++ rest] stops first at the end of [body] when
    every character of [body] is in the class and [rest] does not start with
    one. *)
Lemma star_match_run (cs : cclass) (rest : list char) :
  (forall d, hd_error rest = Some d -> cclass_mem U cs d = false) ->
  forall body prev,
    Forall (fun c => cclass_mem U cs c = true) body ->
    exists q more, star_match U cs prev (body ++ rest) = (q, rest) :: more.
Proof.
  intros Hstop. induction body as [|c body IH]; intros prev Hbody.
  - exists prev, []. destruct rest as [|d rest]; [reflexivity|].
    simpl. now rewrite (Hstop d eq_refl).
  - inversion Hbody as [|? ? Hc Hrest]; subst.
    destruct (IH (Some c) Hrest) as (q & more & E).
    exists q, (more ++ [(prev, (c :: body) ++ rest)]).
    simpl. now rewrite Hc, E.
Qed.

Lemma root_rules_before_string (prev : option char) (l : list char)
    (r : Rule) :
  In r (firstn 25 (tokens root)) ->
  mtch U (pattern r) (prev, ch dquote :: l) = [].
Proof.
  intros Hr. simpl in Hr.
  repeat (destruct Hr as [<-|Hr]; [try (vm_compute; reflexivity)|]);
    try contradiction;
    unfold bwords; cbn [pattern rule mtch];
    destruct (at_boundary U (prev, ch dquote :: l)); vm_compute; reflexivity.
Qed.

Lemma string_match (prev : option char) (body rest : list char) :
  ~ In (ch dquote) body ->
  exists more,
    mtch U re_string (prev, (ch dquote :: body ++ [ch dquote]) ++ rest)
    = (Some (ch dquote), rest) :: more.
Proof.
  intros Hq.
  destruct (star_match_run (NoneOf [Ch dquote]) (ch dquote :: rest))
    with (body := body) (prev := Some (ch dquote)) as (q & more & E).
  - intros d [= <-]. reflexivity.
  - apply Forall_forall. intros c Hc.
    cbn [cclass_mem existsb citem_mem]. rewrite orb_false_r.
    apply negb_true_iff. apply N.eqb_neq. intros ->. contradiction.
  - exists (flat_map (mtch U (Chr (OneOf [Ch dquote]))) more ++ []).
    assert ((ch dquote :: body ++ [ch dquote]) ++ rest
            = ch dquote :: body ++ ch dquote :: rest) as ->
      by (simpl; now rewrite <- app_assoc).
    change (mtch U re_string (prev, ch dquote :: body ++ ch dquote :: rest))
      with (flat_map (mtch U (Chr (OneOf [Ch dquote])))
              (star_match U (NoneOf [Ch dquote]) (Some (ch dquote))
                 (body ++ ch dquote :: rest)) ++ []).
    rewrite E. reflexivity.
Qed.

Lemma upper_range (c : char) :
  cclass_mem U upper c = true ->
  exists k, k < 26 /\ c = (65 + N.of_nat k)%N.
Proof.
  cbn [upper cclass_mem existsb citem_mem]. rewrite orb_false_r.
  unfold between. intros H. apply andb_true_iff in H.
  destruct H as [Hlo Hhi]. apply N.leb_le in Hlo, Hhi.
  change (ch "A") with 65%N in Hlo. change (ch "Z") with 90%N in Hhi.
  exists (N.to_nat (c - 65)). split; lia.
Qed.

Lemma root_rules_before_class (prev : option char) (c : char)
    (l : list char) (r : Rule) :
  cclass_mem U upper c = true ->
  In r (firstn 27 (tokens root)) ->
  mtch U (pattern r) (prev, c :: l) = [].
Proof.
  intros Hc Hr. destruct (upper_range c Hc) as (k & Hk & ->).
  simpl in Hr.
  do 26 (destruct k as [|k];
         [repeat (destruct Hr as [<-|Hr]; [try (vm_compute; reflexivity)|]);
          try contradiction;
          unfold bwords; cbn [pattern rule mtch];
          match goal with
          | |- context [at_boundary U ?p] => destruct (at_boundary U p)
          end; vm_compute; reflexivity|]).
  lia.
Qed.

End Runs.

(** X7.  In the [root] state a double quote at the cursor, characters other
    than a double quote (newlines included) and a closing double quote are
    one [String_] token, and the state stays [root]. *)
Theorem closed_string (U : UnicodeData)
    (pre body rest : list char) (below : list LexerState) :
  ~ In (ch dquote) body ->
  step U (pre ++ (ch dquote :: body ++ [ch dquote]) ++ rest)
       {| cursor := length pre; state_stack := root :: below |} =
    Some ([ {| ttype := String_;
               text := ch dquote :: body ++ [ch dquote];
               start_offset := length pre;
               end_offset :=
                 length pre + length (ch dquote :: body ++ [ch dquote]) |} ],
          {| cursor := length pre + length (ch dquote :: body ++ [ch dquote]);
             state_stack := root :: below |}).
Proof.
  intros Hq.
  set (m := ch dquote :: body ++ [ch dquote]).
  destruct (string_match U (prev_at (pre ++ m ++ rest) (length pre))
              body rest Hq) as (more & E).
  apply (step_at U root below pre m rest 25 (rule re_string String_)
           String_ (Some (ch dquote)) more);
    try reflexivity.
  - intros r' Hr'. now apply root_rules_before_string.
  - exact E.
Qed.

(** Witness of [closed_string]: a string of two lines. *)
Lemma closed_string_witness :
  ~ In (ch dquote) (codes "a" ++ [ch nl] ++ codes "b") /\
  step ascii_only
       ((ch dquote :: (codes "a" ++ [ch nl] ++ codes "b") ++ [ch dquote])
          ++ codes " x")
       initial =
    Some ([ {| ttype := String_;
               text := ch dquote :: (codes "a" ++ [ch nl] ++ codes "b")
                         ++ [ch dquote];
               start_offset := 0; end_offset := 5 |} ],
          {| cursor := 5; state_stack := [root] |}).
Proof.
  assert (~ In (ch dquote) (codes "a" ++ [ch nl] ++ codes "b")) as Hq.
  { vm_compute. intros [H|[H|[H|[]]]]; discriminate. }
  split; [exact Hq|].
  apply (closed_string ascii_only [] _ (codes " x") [] Hq).
Defined.

(** X8.  In the [root] state a run of separators (space, tab, carriage
    return, newline, comma, semicolon) up to the first other character or
    the end of the input is one [Whitespace] token. *)
Theorem whitespace_run (U : UnicodeData)
    (pre : list char) (c : char) (body rest : list char)
    (below : list LexerState) :
  Forall (fun x => cclass_mem U separator x = true) (c :: body) ->
  (forall d, hd_error rest = Some d -> cclass_mem U separator d = false) ->
  step U (pre ++ (c :: body) ++ rest)
       {| cursor := length pre; state_stack := root :: below |} =
    Some ([ {| ttype := Whitespace; text := c :: body;
               start_offset := length pre;
               end_offset := length pre + length (c :: body) |} ],
          {| cursor := length pre + length (c :: body);
             state_stack := root :: below |}).
Proof.
  intros Hrun Hstop. inversion Hrun as [|? ? Hc Hbody]; subst.
  destruct (star_match_run U separator rest Hstop body (Some c) Hbody)
    as (q & more & E).
  apply (step_at U root below pre (c :: body) rest 0
           (rule (Plus separator) Whitespace) Whitespace q more);
    try reflexivity.
  - intros r' [].
  - cbn [pattern rule mtch snd app]. rewrite Hc. exact E.
Qed.

(** Witness of [whitespace_run]: a comma, a space and a newline before a
    letter. *)
Lemma whitespace_run_witness :
  step ascii_only (codes ", " ++ [ch nl] ++ codes "x") initial =
    Some ([ {| ttype := Whitespace; text := codes ", " ++ [ch nl];
               start_offset := 0; end_offset := 3 |} ],
          {| cursor := 3; state_stack := [root] |}).
Proof.
  apply (whitespace_run ascii_only [] (ch ",") (codes " " ++ [ch nl])
           (codes "x") []).
  - repeat constructor.
  - intros d [= <-]. reflexivity.
Defined.

(** X9.  In the [root] state an upper-case ASCII letter at the cursor
    followed by identifier characters (letters, digits, "-", "_") up to the
    first other character or the end of the input is one [Name_Class]
    token: no keyword, type name or literal starts with an upper-case
    letter. *)
Theorem class_name_run (U : UnicodeData)
    (pre : list char) (c : char) (body rest : list char)
    (below : list LexerState) :
  cclass_mem U upper c = true ->
  Forall (fun x => cclass_mem U ident_char x = true) body ->
  (forall d, hd_error rest = Some d -> cclass_mem U ident_char d = false) ->
  step U (pre ++ (c :: body) ++ rest)
       {| cursor := length pre; state_stack := root :: below |} =
    Some ([ {| ttype := Name_Class; text := c :: body;
               start_offset := length pre;
               end_offset := length pre + length (c :: body) |} ],
          {| cursor := length pre + length (c :: body);
             state_stack := root :: below |}).
Proof.
  intros Hc Hbody Hstop.
  destruct (star_match_run U ident_char rest Hstop body (Some c) Hbody)
    as (q & more & E).
  apply (step_at U root below pre (c :: body) rest 27
           (rule (Chr upper ;; Star ident_char) Name_Class) Name_Class
           q (more ++ []));
    try reflexivity.
  - intros r' Hr'. now apply root_rules_before_class.
  - cbn [pattern rule mtch snd fst app flat_map]. rewrite Hc.
    cbn [flat_map mtch fst snd]. rewrite E. reflexivity.
Qed.

(** Witness of [class_name_run]: "Qubit-2" before a space. *)
Lemma class_name_run_witness :
  step ascii_only (codes "Qubit-2 x") initial =
    Some ([ {| ttype := Name_Class; text := codes "Qubit-2";
               start_offset := 0; end_offset := 7 |} ],
          {| cursor := 7; state_stack := [root] |}).
Proof.
  apply (class_name_run ascii_only [] (ch "Q") (codes "ubit-2")
           (codes " x") []).
  - reflexivity.
  - repeat constructor.
  - intros d [= <-]. reflexivity.
Defined.

(** ** Keywords and builtin names *)

Section WordRules.

Variable U : UnicodeData.

(** The word that matches, followed by a word boundary, is the match of the
    rule. *)
Lemma words_match (ws : list string) (w : string) (p q : mpos) :
  prefix_free ws = true ->
  In w ws ->
  lit_match (codes w) p = Some q ->
  at_boundary U q = true ->
  exists more, mtch U (words ws) p = q :: more.
Proof.
  intros Hfree Hw Hlit Hb.
  assert (In q (mtch U (Words ws) p)) as Hq.
  { cbn [mtch]. apply in_flat_map. exists w. split; [exact Hw|].
    rewrite Hlit. now left. }
  assert (In q (mtch U (words ws) p)) as Hin.
  { unfold words. cbn [mtch]. apply in_flat_map. exists q.
    split; [exact Hq|]. rewrite Hb. now left. }
  destruct (mtch U (words ws) p) as [|q0 more] eqn:E; [destruct Hin|].
  exists more. f_equal.
  assert (In q0 (mtch U (words ws) p)) as H0 by (rewrite E; now left).
  unfold words in H0. cbn [mtch] in H0. apply in_flat_map in H0.
  destruct H0 as (q1 & Hq1 & H0).
  destruct (at_boundary U q1); [|destruct H0]. destruct H0 as [<-|[]].
  apply (words_one_match U ws p q1 q Hfree Hq1 Hq).
Qed.


Lemma word_rules_prefix_free (k : nat) (ws : list string) (ty : TokenType) :
  In (k, ws, ty) word_rules ->
  prefix_free ws = true /\
  nth_error (tokens root) k = Some (rule (words ws) ty).
Proof.
  intros H. simpl in H.
  repeat (destruct H as [[= <- <- <-]|H]; [split; reflexivity|]).
  destruct H.
Qed.

(** A word of one of the lists, matched against a text that starts with
    it: the literal match ends after the word, on a word character. *)
Lemma word_rules_literal (k : nat) (ws : list string) (ty : TokenType)
    (w : string) (prev : option char) (rest : list char) :
  In (k, ws, ty) word_rules ->
  In w ws ->
  exists c,
    lit_match (codes w) (prev, codes w ++ rest) = Some (Some c, rest) /\
    isword U c = true.
Proof.
  intros H Hw. simpl in H.
  repeat (destruct H as [[= <- <- <-]|H];
          [simpl in Hw;
           repeat (destruct Hw as [<-|Hw];
                   [eexists; split; vm_compute; reflexivity|]);
           destruct Hw|]).
  destruct H.
Qed.

(** The rules that stand before the rule of a word list do not match a text
    that starts with one of its words. *)
Lemma word_rules_earlier (k : nat) (ws : list string) (ty : TokenType)
    (w : string) (prev : option char) (rest : list char) (r : Rule) :
  In (k, ws, ty) word_rules ->
  In w ws ->
  In r (firstn k (tokens root)) ->
  mtch U (pattern r) (prev, codes w ++ rest) = [].
Proof.
  intros H Hw Hr. simpl in H.
  repeat (destruct H as [[= <- <- <-]|H];
          [simpl in Hw;
           repeat (destruct Hw as [<-|Hw];
                   [simpl in Hr;
                    repeat (destruct Hr as [<-|Hr];
                            [vm_compute; reflexivity|]);
                    destruct Hr|]);
           destruct Hw|]).
  destruct H.
Qed.

End WordRules.

(** X10.  In the [root] state a declaration keyword, type keyword, reserved
    word, classical or quantum builtin type name at the cursor, followed by
    a non-word character or by the end of the input, is one token of the
    type of its list, whose text is the word. *)
Theorem word_rule_token (U : UnicodeData)
    (k : nat) (ws : list string) (ty : TokenType) (w : string)
    (pre rest : list char) (below : list LexerState) :
  In (k, ws, ty) word_rules ->
  In w ws ->
  opt_isword U (hd_error rest) = false ->
  step U (pre ++ codes w ++ rest)
       {| cursor := length pre; state_stack := root :: below |} =
    Some ([ {| ttype := ty; text := codes w;
               start_offset := length pre;
               end_offset := length pre + length (codes w) |} ],
          {| cursor := length pre + length (codes w);
             state_stack := root :: below |}).
Proof.
  intros Hrule Hw Hrest.
  destruct (word_rules_prefix_free k ws ty Hrule) as [Hfree Hnth].
  set (prev := prev_at (pre ++ codes w ++ rest) (length pre)).
  destruct (word_rules_literal U k ws ty w prev rest Hrule Hw)
    as (c & Hlit & Hc).
  destruct (words_match U ws w (prev, codes w ++ rest) (Some c, rest)
              Hfree Hw Hlit) as (more & E).
  { unfold at_boundary. cbn [fst snd opt_isword]. now rewrite Hc, Hrest. }
  apply (step_at U root below pre (codes w) rest k (rule (words ws) ty) ty
           (Some c) more);
    try reflexivity.
  - exact Hnth.
  - intros r' Hr'. now apply (word_rules_earlier U k ws ty).
  - exact E.
Qed.

(** Witness of [word_rule_token]: the keyword "meta-fn" before a space. *)
Lemma word_rule_token_witness :
  step ascii_only (codes "meta-fn" ++ codes " x") initial =
    Some ([ {| ttype := Keyword_Declaration; text := codes "meta-fn";
               start_offset := 0; end_offset := 7 |} ],
          {| cursor := 7; state_stack := [root] |}).
Proof.
  apply (word_rule_token ascii_only 3 keywords_decl Keyword_Declaration
           "meta-fn" [] (codes " x") []).
  - simpl. tauto.
  - simpl. tauto.
  - reflexivity.
Defined.



(** X12.  Within each word list of the class no word is a prefix of another,
    so at any position at most one word of a list matches: the alternation
    built from a list gives the same match whatever the order in which it
    tries the words. *)
Theorem word_lists_unambiguous (U : UnicodeData)
    (ws : list string) (p q q' : mpos) :
  In ws [keywords_decl; keywords_type; keywords_reserved;
         builtin_types_classical; builtin_types_quantum;
         bool_literals; quantum_bool_literals] ->
  In q (mtch U (Words ws) p) ->
  In q' (mtch U (Words ws) p) ->
  q = q'.
Proof.
  intros Hws. apply words_one_match.
  simpl in Hws.
  repeat (destruct Hws as [<-|Hws]; [reflexivity|]). destruct Hws.
Qed.

(** Witness of [word_lists_unambiguous]: "metafn" at the start of a
    text. *)
Lemma word_lists_unambiguous_witness :
  In (Some (ch "n"), codes " x")
     (mtch ascii_only (Words keywords_decl) (None, codes "metafn x")) /\
  (Some (ch "n"), codes " x") = (Some (ch "n"), codes " x").
Proof.
  assert (In (Some (ch "n"), codes " x")
             (mtch ascii_only (Words keywords_decl) (None, codes "metafn x")))
    as H by (vm_compute; tauto).
  split; [exact H|].
  apply (word_lists_unambiguous ascii_only keywords_decl
           (None, codes "metafn x") _ _); [simpl; tauto|exact H|exact H].
Defined.

(** ** The bracket states *)

Ltac rules_fail U Hr :=
  simpl in Hr;
  repeat (destruct Hr as [<-|Hr]; [try (vm_compute; reflexivity)|]);
  try contradiction;
  unfold bwords; cbn [pattern rule mtch];
  match goal with
  | |- context [at_boundary U ?p] => destruct (at_boundary U p)
  end;
  vm_compute; reflexivity.

Section Brackets.

Variable U : UnicodeData.

Lemma trait_list_open (pre rest : list char) (below : list LexerState) :
  step U (pre ++ codes "#[" ++ rest)
       {| cursor := length pre; state_stack := root :: below |} =
    Some ([ {| ttype := Punctuation; text := codes "#[";
               start_offset := length pre;
               end_offset := length pre + 2 |} ],
          {| cursor := length pre + 2;
             state_stack := trait_list :: root :: below |}).
Proof.
  apply (step_at U root below pre (codes "#[") rest 19
           (rule_to (Lit "#[") Punctuation (Push trait_list))
           Punctuation (Some (ch "[")) []);
    try reflexivity.
  generalize (prev_at (pre ++ codes "#[" ++ rest) (length pre)) as prev.
  intros prev r' Hr'. rules_fail U Hr'.
Qed.

Lemma trait_list_close (pre rest : list char) (below : list LexerState) :
  step U (pre ++ codes "]" ++ rest)
       {| cursor := length pre; state_stack := trait_list :: below |} =
    Some ([ {| ttype := Punctuation; text := codes "]";
               start_offset := length pre;
               end_offset := length pre + 1 |} ],
          {| cursor := length pre + 1; state_stack := below |}).
Proof.
  apply (step_at U trait_list below pre (codes "]") rest 2
           (rule_to (Lit "]") Punctuation Pop)
           Punctuation (Some (ch "]")) []);
    try reflexivity.
  generalize (prev_at (pre ++ codes "]" ++ rest) (length pre)) as prev.
  intros prev r' [<-|[<-|[]]]; vm_compute; reflexivity.
Qed.

Lemma modifier_open (pre rest : list char) (below : list LexerState) :
  step U (pre ++ codes "<" ++ rest)
       {| cursor := length pre; state_stack := root :: below |} =
    Some ([ {| ttype := Punctuation; text := codes "<";
               start_offset := length pre;
               end_offset := length pre + 1 |} ],
          {| cursor := length pre + 1;
             state_stack := modifier :: root :: below |}).
Proof.
  apply (step_at U root below pre (codes "<") rest 21
           (rule_to (Lit "<") Punctuation (Push modifier))
           Punctuation (Some (ch "<")) []);
    try reflexivity.
  generalize (prev_at (pre ++ codes "<" ++ rest) (length pre)) as prev.
  intros prev r' Hr'. rules_fail U Hr'.
Qed.

Lemma modifier_close (pre rest : list char) (below : list LexerState) :
  step U (pre ++ codes ">" ++ rest)
       {| cursor := length pre; state_stack := modifier :: below |} =
    Some ([ {| ttype := Punctuation; text := codes ">";
               start_offset := length pre;
               end_offset := length pre + 1 |} ],
          {| cursor := length pre + 1; state_stack := below |}).
Proof.
  apply (step_at U modifier below pre (codes ">") rest 8
           (rule_to (Lit ">") Punctuation Pop)
           Punctuation (Some (ch ">")) []);
    try reflexivity.
  generalize (prev_at (pre ++ codes ">" ++ rest) (length pre)) as prev.
  intros prev r' Hr'. simpl in Hr'.
  repeat (destruct Hr' as [<-|Hr']; [vm_compute; reflexivity|]).
  destruct Hr'.
Qed.

End Brackets.

(** X13.  The two bracket states open and close as pairs.  In [root], "#["
    at the cursor is a [Punctuation] token that pushes [trait_list], and
    "<" is a [Punctuation] token that pushes [modifier]; in [trait_list],
    "]" is a [Punctuation] token that pops, and in [modifier], ">" is one
    that pops: the closer gives back the stack the opener found. *)
Theorem bracket_states (U : UnicodeData)
    (pre rest : list char) (below : list LexerState) :
  (step U (pre ++ codes "#[" ++ rest)
        {| cursor := length pre; state_stack := root :: below |} =
     Some ([ {| ttype := Punctuation; text := codes "#[";
                start_offset := length pre;
                end_offset := length pre + 2 |} ],
           {| cursor := length pre + 2;
              state_stack := trait_list :: root :: below |})) /\
  (step U (pre ++ codes "]" ++ rest)
        {| cursor := length pre;
           state_stack := trait_list :: root :: below |} =
     Some ([ {| ttype := Punctuation; text := codes "]";
                start_offset := length pre;
                end_offset := length pre + 1 |} ],
           {| cursor := length pre + 1; state_stack := root :: below |})) /\
  (step U (pre ++ codes "<" ++ rest)
        {| cursor := length pre; state_stack := root :: below |} =
     Some ([ {| ttype := Punctuation; text := codes "<";
                start_offset := length pre;
                end_offset := length pre + 1 |} ],
           {| cursor := length pre + 1;
              state_stack := modifier :: root :: below |})) /\
  (step U (pre ++ codes ">" ++ rest)
        {| cursor := length pre;
           state_stack := modifier :: root :: below |} =
     Some ([ {| ttype := Punctuation; text := codes ">";
                start_offset := length pre;
                end_offset := length pre + 1 |} ],
           {| cursor := length pre + 1; state_stack := root :: below |})).
Proof.
  split; [apply trait_list_open|].
  split; [apply trait_list_close|].
  split; [apply modifier_open|apply modifier_close].
Qed.

(** ** Leading zeros *)

Section LeadingZero.

Variable U : UnicodeData.

Lemma word_not_dot (c : char) : isword U c = true -> c <> ch ".".
Proof. intros H ->. vm_compute in H. discriminate. Qed.

(** [-?(?:[1-9]\d*|0)\b] on a zero followed by a word character. *)
Lemma re_int_leading_zero (prev : option char) (c : char) (rest : list char) :
  isword U c = true ->
  mtch U re_int (prev, ch "0" :: c :: rest) = [].
Proof.
  intros Hc.
  assert (at_boundary U (Some (ch "0"), c :: rest) = false) as Hb.
  { unfold at_boundary. cbn [fst snd hd_error opt_isword]. rewrite Hc.
    reflexivity. }
  change (mtch U re_int (prev, ch "0" :: c :: rest))
    with ((([] ++ (if at_boundary U (Some (ch "0"), c :: rest)
                   then [(Some (ch "0"), c :: rest)] else []) ++ [])
           ++ []) : list mpos).
  now rewrite Hb.
Qed.

(** [-?\d+\.\d+] on a zero followed by a word character that is not a
    digit. *)
Lemma float_leading_zero (prev : option char) (c : char) (rest : list char) :
  isword U c = true -> isdecimal U c = false ->
  mtch U (Opt (Lit "-") ;; Plus digit ;; Lit "." ;; Plus digit)
       (prev, ch "0" :: c :: rest) = [].
Proof.
  intros Hc Hd. apply word_not_dot in Hc. apply N.eqb_neq in Hc.
  assert (star_match U digit (Some (ch "0")) (c :: rest)
          = [(Some (ch "0"), c :: rest)]) as Hstar.
  { cbn [star_match digit cclass_mem existsb citem_mem]. now rewrite Hd. }
  change (mtch U (Opt (Lit "-") ;; Plus digit ;; Lit "." ;; Plus digit)
               (prev, ch "0" :: c :: rest))
    with ((flat_map (mtch U (Lit "." ;; Plus digit))
             (star_match U digit (Some (ch "0")) (c :: rest)) ++ [])
          : list mpos).
  rewrite Hstar. cbn [flat_map mtch codes lit_match snd olist app].
  now rewrite Hc.
Qed.

Lemma root_rules_on_zero (prev : option char) (c : char) (rest : list char)
    (r : Rule) :
  isword U c = true -> isdecimal U c = false ->
  In r (tokens root) ->
  mtch U (pattern r) (prev, ch "0" :: c :: rest) = [].
Proof.
  intros Hc Hd Hr. simpl in Hr.
  repeat (destruct Hr as [<-|Hr]; [try (vm_compute; reflexivity)|]);
    try contradiction.
  - unfold bwords. cbn [pattern rule mtch].
    destruct (at_boundary U (prev, ch "0" :: c :: rest));
      vm_compute; reflexivity.
  - unfold bwords. cbn [pattern rule mtch].
    destruct (at_boundary U (prev, ch "0" :: c :: rest));
      vm_compute; reflexivity.
  - now apply float_leading_zero.
  - now apply re_int_leading_zero.
Qed.

End LeadingZero.

(** X14.  A zero directly followed by a word character (a letter, a digit,
    "_") is never an integer token: the integer pattern, used in [root] and
    in [modifier], does not match there.  In [root], when the character
    after the zero is not a digit either, the zero becomes an [Error] token
    of one character. *)
Theorem leading_zero (U : UnicodeData)
    (pre : list char) (c : char) (rest : list char)
    (below : list LexerState) :
  isword U c = true ->
  rexmatch U re_int (pre ++ ch "0" :: c :: rest) (length pre) = None /\
  (isdecimal U c = false ->
   step U (pre ++ ch "0" :: c :: rest)
        {| cursor := length pre; state_stack := root :: below |} =
     Some ([ {| ttype := Error; text := [ch "0"];
                start_offset := length pre;
                end_offset := S (length pre) |} ],
           {| cursor := S (length pre); state_stack := root :: below |})).
Proof.
  intros Hc. split.
  - apply rexmatch_at_none. now apply re_int_leading_zero.
  - intros Hd.
    apply (step_fallback_at U root below pre (ch "0") (c :: rest)).
    intros r Hr. now apply root_rules_on_zero.
Qed.

(** Witness of [leading_zero]: "0x1". *)
Lemma leading_zero_witness :
  isword ascii_only (ch "x") = true /\
  rexmatch ascii_only re_int (codes "0x1") 0 = None.
Proof.
  split; [reflexivity|].
  apply (leading_zero ascii_only [] (ch "x") (codes "1") []).
  reflexivity.
Defined.

(** ** Registration *)

(** X15.  The entry that [register_lexer] stores agrees with the attributes
    of the lexer class: the same name, the same aliases and MIME types in
    the same order, and the same file patterns, listed in the other
    order. *)
Theorem lexer_info_agrees :
  info_name lexer_info = name /\
  info_aliases lexer_info = aliases /\
  info_mimetypes lexer_info = mimetypes /\
  Permutation (info_filenames lexer_info) filenames /\
  info_filenames lexer_info <> filenames.
Proof.
  repeat split; try reflexivity.
  - apply perm_swap.
  - discriminate.
Qed.

(** ** Numbers *)

Section Numbers.

Variable U : UnicodeData.

(** The first match of a sequence is the first match of its second part
    after the first match of its first part, when there is one. *)
Lemma mtch_seq_head (r1 r2 : regex) (p q1 q2 : mpos) (more1 more2 : list mpos) :
  mtch U r1 p = q1 :: more1 ->
  mtch U r2 q1 = q2 :: more2 ->
  mtch U (r1 ;; r2) p = q2 :: (more2 ++ flat_map (mtch U r2) more1).
Proof. intros H1 H2. cbn [mtch]. rewrite H1. cbn [flat_map]. now rewrite H2. Qed.

Lemma mtch_opt_skip (r : regex) (p : mpos) :
  mtch U r p = [] -> mtch U (Opt r) p = [p].
Proof. intros H. cbn [mtch]. now rewrite H. Qed.

Lemma mtch_plus_run (cs : cclass) (prev : option char) (c : char)
    (body rest : list char) :
  cclass_mem U cs c = true ->
  Forall (fun x => cclass_mem U cs x = true) body ->
  (forall d, hd_error rest = Some d -> cclass_mem U cs d = false) ->
  exists q more, mtch U (Plus cs) (prev, c :: body ++ rest) = (q, rest) :: more.
Proof.
  intros Hc Hbody Hstop. cbn [mtch snd]. rewrite Hc.
  now apply star_match_run.
Qed.

Lemma digit_mem (x : char) : cclass_mem U digit x = isdecimal U x.
Proof. cbn [digit cclass_mem existsb citem_mem]. apply orb_false_r. Qed.

Lemma ascii_digit (x : char) :
  (ch "0" <= x <= ch "9")%N ->
  isdecimal U x = true /\ isword U x = true /\ x <> ch "." /\ x <> ch "-".
Proof.
  change (ch "0") with 48%N. change (ch "9") with 57%N.
  change (ch ".") with 46%N. change (ch "-") with 45%N. intros [Hlo Hhi].
  assert ((x <? 128)%N = true) as Hlt by (apply N.ltb_lt; lia).
  assert (between 48 57 x = true) as Hb.
  { unfold between. apply andb_true_iff. split; apply N.leb_le; lia. }
  unfold isword, isalnum, isdecimal, ascii_isalnum, ascii_isdecimal.
  rewrite Hlt, Hb. repeat split; try reflexivity; lia.
Qed.

Lemma ascii_digit_range (x : char) :
  (ch "0" <= x <= ch "9")%N ->
  exists k, k < 10 /\ x = (48 + N.of_nat k)%N.
Proof.
  change (ch "0") with 48%N. change (ch "9") with 57%N. intros [Hlo Hhi].
  exists (N.to_nat (x - 48)). split; lia.
Qed.

Lemma root_rules_before_float (prev : option char) (c : char)
    (l : list char) (r : Rule) :
  (ch "0" <= c <= ch "9")%N ->
  In r (firstn 23 (tokens root)) ->
  mtch U (pattern r) (prev, c :: l) = [].
Proof.
  intros Hc Hr. destruct (ascii_digit_range c Hc) as (k & Hk & ->).
  do 10 (destruct k as [|k]; [rules_fail U Hr|]).
  lia.
Qed.

Lemma decimal_not_dot (x : char) : isdecimal U x = true -> x <> ch ".".
Proof. intros H ->. vm_compute in H. discriminate. Qed.

(** [-?\d+\.\d+] on digits, a dot and digits: the first match takes both
    runs whole. *)
Lemma float_match (prev : option char) (c : char) (body1 : list char)
    (e : char) (body2 rest : list char) :
  (ch "0" <= c <= ch "9")%N ->
  Forall (fun x => isdecimal U x = true) body1 ->
  isdecimal U e = true ->
  Forall (fun x => isdecimal U x = true) body2 ->
  (forall d, hd_error rest = Some d -> isdecimal U d = false) ->
  exists q more,
    mtch U (Opt (Lit "-") ;; Plus digit ;; Lit "." ;; Plus digit)
         (prev, c :: body1 ++ ch "." :: e :: body2 ++ rest)
    = (q, rest) :: more.
Proof.
  intros Hc H1 He H2 Hstop.
  destruct (ascii_digit c Hc) as (Hcd & _ & _ & Hminus).
  assert (forall l, Forall (fun x => isdecimal U x = true) l ->
                    Forall (fun x => cclass_mem U digit x = true) l) as Hall.
  { intros l Hl. apply Forall_forall. intros x Hx. rewrite digit_mem.
    rewrite Forall_forall in Hl. now apply Hl. }
  destruct (mtch_plus_run digit prev c body1 (ch "." :: e :: body2 ++ rest))
    as (q1 & more1 & E1);
    [now rewrite digit_mem|now apply Hall|now intros d [= <-]|].
  destruct (mtch_plus_run digit (Some (ch ".")) e body2 rest)
    as (q2 & more2 & E2);
    [now rewrite digit_mem|now apply Hall|
     intros d Hd; rewrite digit_mem; now apply Hstop|].
  assert (mtch U (Lit ".") (q1, ch "." :: e :: body2 ++ rest)
          = [(Some (ch "."), e :: body2 ++ rest)]) as Edot by reflexivity.
  assert (mtch U (Opt (Lit "-")) (prev, c :: body1 ++ ch "." :: e :: body2 ++ rest)
          = [(prev, c :: body1 ++ ch "." :: e :: body2 ++ rest)]) as Eopt.
  { apply mtch_opt_skip. cbn [mtch codes lit_match snd olist].
    apply N.eqb_neq in Hminus. now rewrite Hminus. }
  pose proof (mtch_seq_head _ _ _ _ _ _ _ Edot E2) as E3.
  pose proof (mtch_seq_head _ _ _ _ _ _ _ E1 E3) as E4.
  pose proof (mtch_seq_head _ _ _ _ _ _ _ Eopt E4) as E5.
  eexists _, _. exact E5.
Qed.

End Numbers.

(** X16.  In the [root] state an ASCII digit, further digits, a dot and at
    least one digit, up to the first character that is not a digit or the
    end of the input, are one [Number_Float] token: the float rule stands
    before the integer rule, takes both runs of digits whole, and accepts
    leading zeros. *)
Theorem float_literal (U : UnicodeData)
    (pre : list char) (c : char) (body1 : list char)
    (e : char) (body2 rest : list char) (below : list LexerState) :
  (ch "0" <= c <= ch "9")%N ->
  Forall (fun x => isdecimal U x = true) body1 ->
  isdecimal U e = true ->
  Forall (fun x => isdecimal U x = true) body2 ->
  (forall d, hd_error rest = Some d -> isdecimal U d = false) ->
  step U (pre ++ (c :: body1 ++ ch "." :: e :: body2) ++ rest)
       {| cursor := length pre; state_stack := root :: below |} =
    Some ([ {| ttype := Number_Float;
               text := c :: body1 ++ ch "." :: e :: body2;
               start_offset := length pre;
               end_offset :=
                 length pre + length (c :: body1 ++ ch "." :: e :: body2) |} ],
          {| cursor :=
               length pre + length (c :: body1 ++ ch "." :: e :: body2);
             state_stack := root :: below |}).
Proof.
  intros Hc H1 He H2 Hstop.
  set (m := c :: body1 ++ ch "." :: e :: body2).
  assert (m ++ rest = c :: body1 ++ ch "." :: e :: body2 ++ rest) as Hm.
  { unfold m. simpl. now rewrite <- app_assoc. }
  destruct (float_match U (prev_at (pre ++ m ++ rest) (length pre))
              c body1 e body2 rest Hc H1 He H2 Hstop) as (q & more & E).
  apply (step_at U root below pre m rest 23
           (rule (Opt (Lit "-") ;; Plus digit ;; Lit "." ;; Plus digit)
                 Number_Float)
           Number_Float q more);
    try reflexivity.
  - intros r' Hr'. rewrite Hm. now apply root_rules_before_float.
  - rewrite Hm in E |- *. exact E.
Qed.

(** Witness of [float_literal]: "007.50" before a closing parenthesis. *)
Lemma float_literal_witness :
  step ascii_only (codes "007.50)") initial =
    Some ([ {| ttype := Number_Float; text := codes "007.50";
               start_offset := 0; end_offset := 6 |} ],
          {| cursor := 6; state_stack := [root] |}).
Proof.
  apply (float_literal ascii_only [] (ch "0") (codes "07") (ch "5")
           (codes "0") (codes ")") []).
  - vm_compute. split; discriminate.
  - repeat constructor.
  - reflexivity.
  - repeat constructor.
  - intros d [= <-]. reflexivity.
Defined.

Section Integers.

Variable U : UnicodeData.

Lemma mtch_alt_head (r1 r2 : regex) (p q : mpos) (more : list mpos) :
  mtch U r1 p = q :: more ->
  mtch U (r1 <|> r2) p = q :: (more ++ mtch U r2 p).
Proof. intros H. cbn [mtch]. now rewrite H. Qed.

(** As [star_match_run], keeping track of the character before the end of
    the run. *)
Lemma star_match_run_word (cs : cclass) (rest : list char) :
  (forall d, hd_error rest = Some d -> cclass_mem U cs d = false) ->
  forall body prev,
    Forall (fun c => cclass_mem U cs c = true /\ isword U c = true) body ->
    opt_isword U prev = true ->
    exists q more,
      star_match U cs prev (body ++ rest) = (q, rest) :: more /\
      opt_isword U q = true.
Proof.
  intros Hstop. induction body as [|c body IH]; intros prev Hbody Hprev.
  - exists prev, []. split; [|exact Hprev].
    destruct rest as [|d rest]; [reflexivity|].
    simpl. now rewrite (Hstop d eq_refl).
  - inversion Hbody as [|? ? [Hc Hw] Hrest]; subst.
    destruct (IH (Some c) Hrest Hw) as (q & more & E & Hq).
    exists q, (more ++ [(prev, (c :: body) ++ rest)]).
    split; [|exact Hq]. simpl. now rewrite Hc, E.
Qed.

(** The positions a greedy run over [body ++ rest] can stop at are inside
    [body] or at its end. *)
Lemma star_match_suffix (cs : cclass) (rest : list char) :
  forall body prev q,
    In q (star_match U cs prev (body ++ rest)) ->
    Forall (fun c => cclass_mem U cs c = true) body ->
    (forall d, hd_error rest = Some d -> cclass_mem U cs d = false) ->
    exists body', snd q = body' ++ rest /\ incl body' body.
Proof.
  induction body as [|c body IH]; intros prev q Hq Hbody Hstop.
  - exists []. split; [|intros x []].
    destruct rest as [|d rest]; simpl in Hq.
    + now destruct Hq as [<-|[]].
    + rewrite (Hstop d eq_refl) in Hq. now destruct Hq as [<-|[]].
  - inversion Hbody as [|? ? Hc Hrest]; subst.
    simpl in Hq. rewrite Hc in Hq. apply in_app_iff in Hq.
    destruct Hq as [Hq|[<-|[]]].
    + destruct (IH _ _ Hq Hrest Hstop) as (body' & E & Hincl).
      exists body'. split; [exact E|]. intros x Hx. right. now apply Hincl.
    + exists (c :: body). split; [reflexivity|apply incl_refl].
Qed.

Lemma flat_map_nil {A B} (f : A -> list B) (l : list A) :
  (forall x, In x l -> f x = []) -> flat_map f l = [].
Proof.
  induction l as [|x l IH]; intros H; [reflexivity|].
  simpl. rewrite (H x (or_introl eq_refl)). apply IH.
  intros y Hy. apply H. now right.
Qed.

Lemma lit_dot_fail (r : regex) (prev : option char) (l : list char) :
  (forall d, hd_error l = Some d -> d <> ch ".") ->
  mtch U (Lit "." ;; r) (prev, l) = [].
Proof.
  intros H. cbn [mtch codes lit_match snd].
  destruct l as [|d l]; [reflexivity|].
  specialize (H d eq_refl). apply N.eqb_neq in H. now rewrite H.
Qed.

Lemma ascii_digits_decimal (body : list char) :
  Forall (fun x => (ch "0" <= x <= ch "9")%N) body ->
  Forall (fun x => cclass_mem U digit x = true) body /\
  Forall (fun x => cclass_mem U digit x = true /\ isword U x = true) body /\
  (forall x, In x body -> x <> ch ".").
Proof.
  intros H. rewrite !Forall_forall. rewrite Forall_forall in H.
  split; [|split].
  - intros x Hx. rewrite digit_mem.
    now destruct (ascii_digit U x (H x Hx)) as (? & _).
  - intros x Hx. rewrite digit_mem.
    destruct (ascii_digit U x (H x Hx)) as (? & ? & _). now split.
  - intros x Hx. now destruct (ascii_digit U x (H x Hx)) as (_ & _ & ? & _).
Qed.

(** [-?\d+\.\d+] does not match digits that no dot follows. *)
Lemma float_no_dot (prev : option char) (c : char) (body rest : list char) :
  (ch "0" <= c <= ch "9")%N ->
  Forall (fun x => (ch "0" <= x <= ch "9")%N) body ->
  (forall d, hd_error rest = Some d -> isdecimal U d = false /\ d <> ch ".") ->
  mtch U (Opt (Lit "-") ;; Plus digit ;; Lit "." ;; Plus digit)
       (prev, c :: body ++ rest) = [].
Proof.
  intros Hc Hbody Hstop.
  destruct (ascii_digit U c Hc) as (Hcd & _ & _ & Hminus).
  destruct (ascii_digits_decimal body Hbody) as (Hdec & _ & Hnodot).
  assert (mtch U (Opt (Lit "-")) (prev, c :: body ++ rest)
          = [(prev, c :: body ++ rest)]) as Eopt.
  { apply mtch_opt_skip. cbn [mtch codes lit_match snd olist].
    apply N.eqb_neq in Hminus. now rewrite Hminus. }
  cbn [mtch] in Eopt |- *. rewrite Eopt. cbn [flat_map snd].
  rewrite digit_mem, Hcd, app_nil_r.
  apply flat_map_nil. intros [q l] Hq.
  destruct (star_match_suffix digit rest body (Some c) (q, l) Hq Hdec)
    as (body' & E & Hincl).
  { intros d Hd. rewrite digit_mem. now apply Hstop. }
  simpl in E. subst l.
  apply (lit_dot_fail (Plus digit) q (body' ++ rest)).
  intros d Hd. destruct body' as [|x body']; simpl in Hd.
  - now apply Hstop.
  - injection Hd as <-. apply Hnodot. apply Hincl. now left.
Qed.

(** [-?(?:[1-9]\d*|0)\b] on a digit from 1 to 9 and further digits, before
    a non-word character or the end of the input. *)
Lemma re_int_match (prev : option char) (c : char) (body rest : list char) :
  (ch "1" <= c <= ch "9")%N ->
  Forall (fun x => (ch "0" <= x <= ch "9")%N) body ->
  (forall d, hd_error rest = Some d ->
             isword U d = false /\ isdecimal U d = false) ->
  exists q more,
    mtch U re_int (prev, c :: body ++ rest) = (q, rest) :: more.
Proof.
  intros Hc Hbody Hstop.
  assert ((ch "0" <= c <= ch "9")%N) as Hc0.
  { change (ch "0") with 48%N. change (ch "1") with 49%N in Hc. lia. }
  destruct (ascii_digit U c Hc0) as (Hcd & Hcw & _ & Hminus).
  destruct (ascii_digits_decimal body Hbody) as (_ & Hword & _).
  destruct (star_match_run_word digit rest) with (body := body)
    (prev := Some c) as (q & more & E & Hq); [|exact Hword|exact Hcw|].
  { intros d Hd. rewrite digit_mem. now apply Hstop. }
  assert (mtch U (Opt (Lit "-")) (prev, c :: body ++ rest)
          = [(prev, c :: body ++ rest)]) as Eopt.
  { apply mtch_opt_skip. cbn [mtch codes lit_match snd olist].
    apply N.eqb_neq in Hminus. now rewrite Hminus. }
  assert (mtch U (Chr (OneOf [Rng "1" "9"])) (prev, c :: body ++ rest)
          = [(Some c, body ++ rest)]) as Echr.
  { cbn [mtch snd cclass_mem existsb citem_mem]. unfold between.
    destruct Hc as [Hlo Hhi]. apply N.leb_le in Hlo, Hhi.
    now rewrite Hlo, Hhi. }
  assert (mtch U (Star digit) (Some c, body ++ rest) = (q, rest) :: more)
    as Estar by exact E.
  assert (mtch U WordB (q, rest) = [(q, rest)]) as Eb.
  { cbn [mtch]. unfold at_boundary. cbn [fst snd]. rewrite Hq.
    destruct rest as [|d rest]; [reflexivity|].
    cbn [hd_error opt_isword]. now rewrite (proj1 (Hstop d eq_refl)). }
  pose proof (mtch_seq_head U _ _ _ _ _ _ _ Echr Estar) as E1.
  pose proof (mtch_alt_head _ (Lit "0") _ _ _ E1) as E2.
  pose proof (mtch_seq_head U _ _ _ _ _ _ _ E2 Eb) as E3.
  pose proof (mtch_seq_head U _ _ _ _ _ _ _ Eopt E3) as E4.
  eexists _, _. exact E4.
Qed.

Lemma root_rules_before_int (prev : option char) (c : char)
    (body rest : list char) (r : Rule) :
  (ch "0" <= c <= ch "9")%N ->
  Forall (fun x => (ch "0" <= x <= ch "9")%N) body ->
  (forall d, hd_error rest = Some d -> isdecimal U d = false /\ d <> ch ".") ->
  In r (firstn 24 (tokens root)) ->
  mtch U (pattern r) (prev, c :: body ++ rest) = [].
Proof.
  intros Hc Hbody Hstop Hr.
  change (firstn 24 (tokens root))
    with (firstn 23 (tokens root) ++
          [rule (Opt (Lit "-") ;; Plus digit ;; Lit "." ;; Plus digit)
                Number_Float]) in Hr.
  apply in_app_iff in Hr. destruct Hr as [Hr|[<-|[]]].
  - now apply root_rules_before_float.
  - now apply float_no_dot.
Qed.

End Integers.

(** X17.  In the [root] state a digit from 1 to 9 followed by ASCII digits,
    up to a character that is neither a word character, a digit nor a dot,
    or up to the end of the input, is one [Number_Integer] token: the float
    rule, tried first, finds no dot and gives way. *)
Theorem integer_literal (U : UnicodeData)
    (pre : list char) (c : char) (body rest : list char)
    (below : list LexerState) :
  (ch "1" <= c <= ch "9")%N ->
  Forall (fun x => (ch "0" <= x <= ch "9")%N) body ->
  (forall d, hd_error rest = Some d ->
             isword U d = false /\ isdecimal U d = false /\ d <> ch ".") ->
  step U (pre ++ (c :: body) ++ rest)
       {| cursor := length pre; state_stack := root :: below |} =
    Some ([ {| ttype := Number_Integer; text := c :: body;
               start_offset := length pre;
               end_offset := length pre + length (c :: body) |} ],
          {| cursor := length pre + length (c :: body);
             state_stack := root :: below |}).
Proof.
  intros Hc Hbody Hstop.
  assert ((ch "0" <= c <= ch "9")%N) as Hc0.
  { change (ch "0") with 48%N. change (ch "1") with 49%N in Hc. lia. }
  destruct (re_int_match U (prev_at (pre ++ (c :: body) ++ rest) (length pre))
              c body rest Hc Hbody) as (q & more & E).
  { intros d Hd. destruct (Hstop d Hd) as (? & ? & ?). now split. }
  apply (step_at U root below pre (c :: body) rest 24
           (rule re_int Number_Integer) Number_Integer q more);
    try reflexivity.
  - intros r' Hr'. apply (root_rules_before_int U _ c body rest r' Hc0 Hbody).
    + intros d Hd. destruct (Hstop d Hd) as (? & ? & ?). now split.
    + exact Hr'.
  - exact E.
Qed.

(** Witness of [integer_literal]: "1024" before a closing parenthesis. *)
Lemma integer_literal_witness :
  step ascii_only (codes "1024)") initial =
    Some ([ {| ttype := Number_Integer; text := codes "1024";
               start_offset := 0; end_offset := 4 |} ],
          {| cursor := 4; state_stack := [root] |}).
Proof.
  apply (integer_literal ascii_only [] (ch "1") (codes "024") (codes ")") []).
  - vm_compute. split; discriminate.
  - repeat constructor; vm_compute; discriminate.
  - intros d [= <-]. repeat split; try reflexivity. discriminate.
Defined.
